(** * Waypoint: deployment environment and snapshot restore client

    A shallow embedding of

      - [sdk/component/deployment.go]      ([DeploymentConfig.Env]) and
      - [internal/cli/snapshot_restore.go] ([initReader], [Run]),

    together with the properties of the chunked snapshot transfer that
    the restore command drives. *)

From stdpp Require Import gmap strings list fin_maps.
From Stdlib Require Import ZArith Strings.Byte.

Open Scope string_scope.
Open Scope nat_scope.
Open Scope list_scope.

(** ** sdk/component/deployment.go *)

Module component.

(** [type DeploymentConfig struct] *)
Record DeploymentConfig := {
  Id : string;
  ServerAddr : string;
  ServerInsecure : bool;
}.

(** [func (c *DeploymentConfig) Env() map[string]string]: the map literal
    followed by the assignments of the two branches. *)
Definition Env (c : DeploymentConfig) : gmap string string :=
  let results : gmap string string := {[ "DEVFLOW_DEPLOYMENT_ID" := Id c ]} in
  if decide (ServerAddr c = "") then
    <[ "DEVFLOW_SERVER_DISABLE" := "1" ]> results
  else
    let results := <[ "DEVFLOW_SERVER_ADDR" := ServerAddr c ]> results in
    if ServerInsecure c then
      <[ "DEVFLOW_SERVER_INSECURE" := "1" ]> results
    else
      results.

End component.

(** ** internal/cli/snapshot_restore.go *)

Module cli.

(** *** Go values the command works with *)

(** Go [error] values.  The three sentinels of package [io] are compared by
    identity in the code ([err == io.EOF]); every other error is known by
    its message only. *)
Inductive error :=
  | EOF
  | ErrUnexpectedEOF
  | ErrShortBuffer
  | errorString (msg : string).

#[global] Instance error_eq_dec : EqDecision error.
Proof. solve_decision. Defined.

(** [err.Error()], what the [%s] verb prints. *)
Definition Error (e : error) : string :=
  match e with
  | EOF => "EOF"
  | ErrUnexpectedEOF => "unexpected EOF"
  | ErrShortBuffer => "short buffer"
  | errorString msg => msg
  end.

(** *** The byte source: an [io.Reader]

    The state of a reader is the script of what its next [Read] calls will
    meet: [Data bs] is a run of bytes the source has ready (one [Read]
    copies as many of them as fit and leaves the rest for the next call);
    [Fault msg] is a [Read] that copies nothing and fails with a non-EOF
    error; [Eof] is a [Read] that copies nothing and returns [io.EOF]
    although the script goes on: a FIFO whose writer closed it and that
    another writer opens again, a file that grows after its end was
    reached.  Past the end of the script every [Read] returns
    [0, io.EOF].  The reader of [Run] is always an [*os.File] ([os.Stdin],
    or what [os.Open] returned), and that is how its [Read] answers: bytes
    and no error, or no bytes and an error.

    A script is a source that ends: after finitely many reads it returns
    [io.EOF] for good.  A source that never does (a device that delivers
    bytes for ever) is no script, and nothing below speaks of one. *)
Inductive segment :=
  | Data (bs : list byte)
  | Fault (msg : string)
  | Eof.

Abbreviation reader := (list segment).

(** [r.Read(p)] with [len(p) = k]: the bytes copied into [p], the error, and
    the reader afterwards. *)
Definition Read (r : reader) (k : nat) : list byte * option error * reader :=
  match r with
  | [] => ([], Some EOF, [])
  | Data bs :: r' =>
      (take k bs, None,
       if decide (length bs <= k) then r' else Data (drop k bs) :: r')
  | Fault msg :: r' => ([], Some (errorString msg), r')
  | Eof :: r' => ([], Some EOF, r')
  end.

(** The bytes a script holds, in order. *)
Fixpoint stream (r : reader) : list byte :=
  match r with
  | [] => []
  | Data bs :: r' => bs ++ stream r'
  | Fault _ :: r' => stream r'
  | Eof :: r' => stream r'
  end.

(** A source none of whose reads fails with an error other than EOF. *)
Fixpoint fault_free (r : reader) : bool :=
  match r with
  | [] => true
  | Data _ :: r' => fault_free r'
  | Fault _ :: _ => false
  | Eof :: r' => fault_free r'
  end.

(** A source that returns [io.EOF] only once all its bytes are read, and
    then for good: the end of its stream is the end of its script. *)
Fixpoint eof_final (r : reader) : bool :=
  match r with
  | [] => true
  | Data _ :: r' => eof_final r'
  | Fault _ :: r' => eof_final r'
  | Eof :: _ => false
  end.

(** [copy(buf[n:], bs)] for [n + len(bs) <= len(buf)]. *)
Definition copy_at (n : nat) (bs buf : list byte) : list byte :=
  take n buf ++ bs ++ drop (n + length bs) buf.

(** [io.ReadFull], which the loop of [Run] calls, is in Go's package [io]:
    [ReadFull(r, buf)] is [ReadAtLeast(r, buf, len(buf))], and this is the
    loop of [ReadAtLeast],
    [for n < min && err == nil { nn, err = r.Read(buf[n:]); n += nn }]. *)
Fixpoint ReadAtLeast_loop (fuel : nat) (r : reader) (buf : list byte)
    (min n : nat) (err : option error)
    : option (nat * option error * list byte * reader) :=
  if (n <? min) && bool_decide (err = None) then
    match fuel with
    | 0 => None
    | S fuel' =>
        let '(bs, err', r') := Read r (length buf - n) in
        ReadAtLeast_loop fuel' r' (copy_at n bs buf) min (n + length bs) err'
    end
  else Some (n, err, buf, r).

(** [io.ReadAtLeast(r, buf, min)]: [n], [err], the buffer and the reader
    afterwards.  After the loop, [if n >= min { err = nil } else if n > 0 &&
    err == EOF { err = ErrUnexpectedEOF }]. *)
Definition ReadAtLeast (fuel : nat) (r : reader) (buf : list byte) (min : nat)
    : option (nat * option error * list byte * reader) :=
  if length buf <? min then Some (0, Some ErrShortBuffer, buf, r)
  else
    match ReadAtLeast_loop fuel r buf min 0 None with
    | None => None
    | Some (n, err, buf', r') =>
        let err :=
          if min <=? n then None
          else if (0 <? n) && bool_decide (err = Some EOF)
               then Some ErrUnexpectedEOF
               else err in
        Some (n, err, buf', r')
    end.

(** [io.ReadFull(r, buf)] is [ReadAtLeast(r, buf, len(buf))]. *)
Definition ReadFull (fuel : nat) (r : reader) (buf : list byte) :=
  ReadAtLeast fuel r buf (length buf).

(** What a buffer fill that starts at offset [n] leaves behind. *)
Definition fill_post (r : reader) (buf : list byte) (n : nat)
    (res : nat * option error * list byte * reader) : Prop :=
  let '(n', _, buf', r') := res in
  n <= n' <= length buf /\ length buf' = length buf /\
  (exists d, take n' buf' = take n buf ++ d /\ stream r = d ++ stream r') /\
  length r' <= length r /\
  (fault_free r = true -> fault_free r' = true) /\
  (eof_final r = true -> eof_final r' = true) /\
  (fault_free r = true -> eof_final r = true -> n' < length buf -> r' = []).

(** *** The stream to the server and the rest of the environment *)

(** The [Event] of a [pb.RestoreSnapshotRequest]. *)
Inductive Event :=
  | Open
  | Chunk (payload : list byte).

(** [os.Stdin] or a file opened by name; [r == os.Stdin] compares these. *)
Inductive file :=
  | Stdin
  | File (name : string).

#[global] Instance file_eq_dec : EqDecision file.
Proof. solve_decision. Defined.

(** Everything [Run] calls that is not in this file: [c.Init] (which
    reports its own failure to the user), the file system and the terminal
    check, the client's [RestoreSnapshot], and the stream it returns.  The
    stream answers a [Send] knowing the events already sent on it, and
    answers [CloseAndRecv] knowing all of them. *)
Record World := {
  c_Init : list string -> option error;
  os_Stdin : reader;
  IsTerminal : bool;
  os_Open : string -> error + reader;
  client_RestoreSnapshot : option error;
  stream_Send : list Event -> Event -> option error;
  stream_CloseAndRecv : list Event -> option error;
}.

(** The calls [Run] makes on the reader and on the stream, each with what
    it returned, in program order. *)
Inductive Call :=
  | io_ReadFull (n : nat) (err : option error)
  | Send (ev : Event) (err : option error)
  | CloseAndRecv (err : option error).

(** What a caller and the operator see of one [Run]. *)
Record Outcome := {
  status : Z;
  stderr : list string;
  ui_output : list string;
  calls : list Call;
  closed : option file;
}.

(** [func (c *SnapshotRestoreCommand) initReader(args []string)
      (io.Reader, io.Closer, error)] *)
Definition initReader (w : World) (args : list string)
    : error + (file * reader * option file) :=
  match args with
  | arg0 :: _ =>
      if decide (arg0 = "-") then inr (Stdin, os_Stdin w, None)
      else
        match os_Open w arg0 with
        | inl err => inl err
        | inr f => inr (File arg0, f, Some (File arg0))
        end
  | [] =>
      if IsTerminal w then
        inl (errorString "stdin is a terminal, refusing to use (use '-' to force)")
      else inr (Stdin, os_Stdin w, None)
  end.

(** How the [for] loop of [Run] is left. *)
Inductive LoopExit :=
  | Break
  | Return (code : Z) (msg : string).

(** [var buf [1024]byte] *)
Definition bufSize : nat := 1024.
Definition buf0 : list byte := replicate bufSize "000"%byte.

(** The [for] loop of [Run]: the calls it makes and how it ends.  [sent] is
    what the stream has been sent so far. *)
Fixpoint sendLoop (fuel : nat) (w : World) (r : reader) (buf : list byte)
    (sent : list Event) : option (list Call * LoopExit) :=
  match fuel with
  | 0 => None
  | S fuel' =>
      match ReadFull fuel r buf with
      | None => None
      | Some (n, err0, buf, r) =>
          let err :=
            if bool_decide (err0 = Some EOF) || bool_decide (err0 = Some ErrUnexpectedEOF)
            then None else err0 in
          if n =? 0 then Some ([io_ReadFull n err0], Break)
          else
            let ev := Chunk (take n buf) in
            let err := stream_Send w sent ev in
            match err with
            | Some e =>
                Some ([io_ReadFull n err0; Send ev err],
                      Return 1%Z ("failed to write snapshot data: " +:+ Error e))
            | None =>
                match sendLoop fuel' w r buf (sent ++ [ev]) with
                | None => None
                | Some (cs, ex) => Some (io_ReadFull n err0 :: Send ev err :: cs, ex)
                end
            end
      end
  end.

(** Fuel that lets both loops run to their end on a script. *)
Definition fuel_for (r : reader) : nat := length r + length (stream r) + 2.

(** The events the stream has received after a list of calls. *)
Fixpoint sent_of (cs : list Call) : list Event :=
  match cs with
  | [] => []
  | Send ev None :: cs' => ev :: sent_of cs'
  | _ :: cs' => sent_of cs'
  end.

(** [func (c *SnapshotRestoreCommand) Run(args []string) int].  [None]
    stands for a run that does not return ([Run_view] shows there is none
    on a source that ends).
    The read error [err] of the loop is cleared when it is [io.EOF] or
    [io.ErrUnexpectedEOF] and then overwritten by the result of [Send], as
    in the source; [c.ui.Output] prints its format with [args[0]] filled
    in. *)
Definition Run (w : World) (args : list string) : option Outcome :=
  match c_Init w args with
  | Some _ =>
      Some {| status := 1%Z; stderr := []; ui_output := []; calls := []; closed := None |}
  | None =>
  match initReader w args with
  | inl err =>
      Some {| status := 1%Z; stderr := ["failed to open output: " +:+ Error err];
              ui_output := []; calls := []; closed := None |}
  | inr (f, r, closer) =>
  match client_RestoreSnapshot w with
  | Some err =>
      Some {| status := 1%Z; stderr := ["failed to restore snapshot: " +:+ Error err];
              ui_output := []; calls := []; closed := closer |}
  | None =>
  match stream_Send w [] Open with
  | Some err =>
      Some {| status := 1%Z; stderr := ["failed to send start message: " +:+ Error err];
              ui_output := []; calls := [Send Open (Some err)]; closed := closer |}
  | None =>
  match sendLoop (fuel_for r) w r buf0 [Open] with
  | None => None
  | Some (cs, Return code msg) =>
      Some {| status := code; stderr := [msg]; ui_output := [];
              calls := Send Open None :: cs; closed := closer |}
  | Some (cs, Break) =>
      let cs := Send Open None :: cs in
      match stream_CloseAndRecv w (sent_of cs) with
      | Some err =>
          Some {| status := 1%Z;
                  stderr := ["failed to receive snapshot start message: " +:+ Error err];
                  ui_output := []; calls := cs ++ [CloseAndRecv (Some err)];
                  closed := closer |}
      | None =>
          match (if decide (f = Stdin) then Some "Server data restored."
                 else match args with
                      | arg0 :: _ => Some ("Server data restored from '" +:+ arg0 +:+ "'.")
                      | [] => None
                      end) with
          | None => None
          | Some line =>
              Some {| status := 0%Z; stderr := []; ui_output := [line];
                      calls := cs ++ [CloseAndRecv None]; closed := closer |}
          end
      end
  end end end end end.

(** *** What a run shows *)

(** The payloads of the Chunk frames handed to [Send], in call order. *)
Fixpoint chunks (cs : list Call) : list (list byte) :=
  match cs with
  | [] => []
  | Send (Chunk p) _ :: cs' => p :: chunks cs'
  | _ :: cs' => chunks cs'
  end.

(** The byte counts the calls of [io.ReadFull] returned, in call order. *)
Fixpoint fills (cs : list Call) : list nat :=
  match cs with
  | [] => []
  | io_ReadFull n _ :: cs' => n :: fills cs'
  | _ :: cs' => fills cs'
  end.

(** The calls made on the stream: the trace without the reads. *)
Fixpoint wire (cs : list Call) : list Call :=
  match cs with
  | [] => []
  | io_ReadFull _ _ :: cs' => wire cs'
  | c :: cs' => c :: wire cs'
  end.

(** The number of half-closes ([CloseAndRecv]) in a trace. *)
Fixpoint half_closes (cs : list Call) : nat :=
  match cs with
  | [] => 0
  | CloseAndRecv _ :: cs' => S (half_closes cs')
  | _ :: cs' => half_closes cs'
  end.

(** The shape of the calls of the [for] loop on a stream that has been
    sent [sent]: every fill that returns bytes is followed by the [Send] of
    exactly those bytes, with the answer of the stream; the loop ends with
    a fill that returns nothing ([Break]) or with a [Send] that fails. *)
Inductive loop_trace (w : World) : list Event -> list Call -> LoopExit -> Prop :=
  | trace_break sent err : loop_trace w sent [io_ReadFull 0 err] Break
  | trace_abort sent n err p e :
      0 < n -> length p = n ->
      stream_Send w sent (Chunk p) = Some e ->
      loop_trace w sent [io_ReadFull n err; Send (Chunk p) (Some e)]
                 (Return 1%Z ("failed to write snapshot data: " +:+ Error e))
  | trace_step sent n err p cs ex :
      0 < n -> length p = n ->
      stream_Send w sent (Chunk p) = None ->
      loop_trace w (sent ++ [Chunk p]) cs ex ->
      loop_trace w sent (io_ReadFull n err :: Send (Chunk p) None :: cs) ex.

(** All chunks but the last one have [N] bytes. *)
Definition full_but_last (N : nat) (ps : list (list byte)) : Prop :=
  forall i p, ps !! i = Some p -> S i < length ps -> length p = N.

(** The seven ways through [Run], each with the outcome it returns: the
    five early [return 1]s, the [return 1] after the half-close, and the
    [return 0]. *)
Inductive run_view (w : World) (args : list string) : Outcome -> Prop :=
  | view_init e :
      c_Init w args = Some e ->
      run_view w args
        {| status := 1%Z; stderr := []; ui_output := []; calls := [];
           closed := None |}
  | view_reader e :
      c_Init w args = None ->
      initReader w args = inl e ->
      run_view w args
        {| status := 1%Z; stderr := ["failed to open output: " +:+ Error e];
           ui_output := []; calls := []; closed := None |}
  | view_channel f r closer e :
      c_Init w args = None ->
      initReader w args = inr (f, r, closer) ->
      client_RestoreSnapshot w = Some e ->
      run_view w args
        {| status := 1%Z; stderr := ["failed to restore snapshot: " +:+ Error e];
           ui_output := []; calls := []; closed := closer |}
  | view_open f r closer e :
      c_Init w args = None ->
      initReader w args = inr (f, r, closer) ->
      client_RestoreSnapshot w = None ->
      stream_Send w [] Open = Some e ->
      run_view w args
        {| status := 1%Z; stderr := ["failed to send start message: " +:+ Error e];
           ui_output := []; calls := [Send Open (Some e)]; closed := closer |}
  | view_chunk f r closer cs code msg :
      c_Init w args = None ->
      initReader w args = inr (f, r, closer) ->
      client_RestoreSnapshot w = None ->
      stream_Send w [] Open = None ->
      sendLoop (fuel_for r) w r buf0 [Open] = Some (cs, Return code msg) ->
      run_view w args
        {| status := code; stderr := [msg]; ui_output := [];
           calls := Send Open None :: cs; closed := closer |}
  | view_result f r closer cs e :
      c_Init w args = None ->
      initReader w args = inr (f, r, closer) ->
      client_RestoreSnapshot w = None ->
      stream_Send w [] Open = None ->
      sendLoop (fuel_for r) w r buf0 [Open] = Some (cs, Break) ->
      stream_CloseAndRecv w (sent_of (Send Open None :: cs)) = Some e ->
      run_view w args
        {| status := 1%Z;
           stderr := ["failed to receive snapshot start message: " +:+ Error e];
           ui_output := [];
           calls := (Send Open None :: cs) ++ [CloseAndRecv (Some e)];
           closed := closer |}
  | view_restored f r closer cs line :
      line = (if decide (f = Stdin) then "Server data restored."
              else "Server data restored from '" +:+ hd "" args +:+ "'.") ->
      c_Init w args = None ->
      initReader w args = inr (f, r, closer) ->
      client_RestoreSnapshot w = None ->
      stream_Send w [] Open = None ->
      sendLoop (fuel_for r) w r buf0 [Open] = Some (cs, Break) ->
      stream_CloseAndRecv w (sent_of (Send Open None :: cs)) = None ->
      run_view w args
        {| status := 0%Z; stderr := []; ui_output := [line];
           calls := (Send Open None :: cs) ++ [CloseAndRecv None];
           closed := closer |}.

End cli.

(** ** Environments to run the command in *)

Module scenario.

Import cli.

Definition bytes (s : string) : list byte := String.list_byte_of_string s.

(** Data piped into standard input, and everything else in order: the
    command initialises, the channel opens, the stream takes every event
    and the server reports success.  There are no files. *)
Definition piped (stdin : reader) : World := {|
  c_Init := fun _ => None;
  os_Stdin := stdin;
  IsTerminal := false;
  os_Open := fun name =>
    inl (errorString ("open " +:+ name +:+ ": no such file or directory"));
  client_RestoreSnapshot := None;
  stream_Send := fun _ _ => None;
  stream_CloseAndRecv := fun _ => None;
|}.

(** The same, on a stream that takes Open and then refuses every Chunk. *)
Definition refusing (stdin : reader) : World := {|
  c_Init := fun _ => None;
  os_Stdin := stdin;
  IsTerminal := false;
  os_Open := fun name =>
    inl (errorString ("open " +:+ name +:+ ": no such file or directory"));
  client_RestoreSnapshot := None;
  stream_Send := fun _ ev =>
    match ev with
    | Open => None
    | Chunk _ => Some (errorString "transport is closing")
    end;
  stream_CloseAndRecv := fun _ => None;
|}.

(** One file on disk, standard input on a terminal, all else in order. *)
Definition on_disk (name : string) (content : reader) : World := {|
  c_Init := fun _ => None;
  os_Stdin := [];
  IsTerminal := true;
  os_Open := fun n =>
    if decide (n = name) then inr content
    else inl (errorString ("open " +:+ n +:+ ": no such file or directory"));
  client_RestoreSnapshot := None;
  stream_Send := fun _ _ => None;
  stream_CloseAndRecv := fun _ => None;
|}.

(** A pipe that delivers 2500 bytes a few at a time: 1000, none, 1500. *)
Definition trickle : reader :=
  [Data (replicate 1000 "a"%byte); Data []; Data (replicate 1500 "b"%byte)].

(** A pipe on which a read fails between two runs of bytes. *)
Definition faulty_pipe : reader :=
  [Data (bytes "AAAA"); Fault "read /dev/stdin: input/output error";
   Data (bytes "BBBB")].

(** A file of 1025 bytes whose second read fails. *)
Definition faulty_file : reader :=
  [Data (replicate 1024 "A"%byte); Fault "read backup.snap: input/output error";
   Data (bytes "B")].

(** A FIFO that its first writer closes after 1000 bytes and that a second
    writer opens again for 1500 more: the read after the first 1000 bytes
    returns [io.EOF], the reads after that deliver bytes again.  No read
    fails. *)
Definition reopened : reader :=
  [Data (replicate 1000 "a"%byte); Eof; Data (replicate 1500 "b"%byte)].

(** A file of the 2500 bytes of [trickle], which one read could deliver. *)
Definition whole_file : reader :=
  [Data (replicate 1000 "a"%byte ++ replicate 1500 "b"%byte)].

End scenario.

Import cli.

(** * Properties *)

(** ** The buffer and one [Read] *)

Section Buffer.

Implicit Types (buf bs : list byte) (n k : nat) (r : reader).

Lemma copy_at_nil n buf : copy_at n [] buf = buf.
Proof.
  unfold copy_at. cbn [length app]. rewrite Nat.add_0_r. apply take_drop.
Qed.

Lemma copy_at_length n bs buf :
  n + length bs <= length buf -> length (copy_at n bs buf) = length buf.
Proof.
  intros H. unfold copy_at.
  rewrite !length_app, length_take, length_drop. lia.
Qed.

Lemma take_copy_at n bs buf :
  n <= length buf -> take (n + length bs) (copy_at n bs buf) = take n buf ++ bs.
Proof.
  intros H. unfold copy_at.
  assert (Hn : length (take n buf) = n) by (rewrite length_take; lia).
  rewrite app_assoc.
  rewrite take_app_le by (rewrite length_app; lia).
  rewrite take_ge by (rewrite length_app; lia). reflexivity.
Qed.

(** What one [Read] does to the script: it copies a prefix of the bytes
    still to come, never more than fit, and when it neither fills the
    buffer nor fails it has used up a whole segment. *)
Lemma Read_spec r k bs err r' :
  Read r k = (bs, err, r') ->
  length bs <= k /\ stream r = bs ++ stream r' /\ length r' <= length r /\
  (err = None -> length bs = k \/ length r' < length r) /\
  (fault_free r = true -> fault_free r' = true) /\
  (eof_final r = true -> eof_final r' = true) /\
  (fault_free r = true -> eof_final r = true -> err <> None -> r' = []).
Proof.
  destruct r as [|[cs|msg|] r0]; cbn [Read]; intros [= <- <- <-].
  - cbn. repeat split; auto; try lia. discriminate.
  - assert (length (take k cs) <= k) by (rewrite length_take; lia).
    case_decide as Hk.
    + rewrite take_ge by lia. cbn. repeat split; auto; try lia. congruence.
    + cbn. rewrite app_assoc, take_drop.
      repeat split; auto; try lia.
      * intros _. left. rewrite length_take. lia.
      * congruence.
  - cbn. repeat split; auto; try lia; discriminate.
  - cbn. repeat split; auto; try lia; discriminate.
Qed.

End Buffer.

(** ** [io.ReadFull] on a script *)

Section ReadFull.

Implicit Types (buf : list byte) (n min fuel : nat) (r : reader).

(** One turn of the loop, whatever the fuel. *)
Lemma ReadAtLeast_loop_eq fuel r buf min n err :
  ReadAtLeast_loop fuel r buf min n err =
  if (n <? min) && bool_decide (err = None) then
    match fuel with
    | 0 => None
    | S fuel' =>
        let '(bs, err', r') := Read r (length buf - n) in
        ReadAtLeast_loop fuel' r' (copy_at n bs buf) min (n + length bs) err'
    end
  else Some (n, err, buf, r).
Proof. destruct fuel; reflexivity. Qed.

(** The loop test fails at once when an error is pending... *)
Lemma ReadAtLeast_loop_err fuel r buf min n e :
  ReadAtLeast_loop fuel r buf min n (Some e) = Some (n, Some e, buf, r).
Proof.
  rewrite ReadAtLeast_loop_eq.
  rewrite bool_decide_eq_false_2 by discriminate.
  rewrite andb_false_r. reflexivity.
Qed.

(** ... or when the buffer is full. *)
Lemma ReadAtLeast_loop_full fuel r buf min n err :
  min <= n -> ReadAtLeast_loop fuel r buf min n err = Some (n, err, buf, r).
Proof.
  intros H. rewrite ReadAtLeast_loop_eq.
  replace (n <? min) with false by (symmetry; apply Nat.ltb_ge; lia).
  reflexivity.
Qed.

Lemma ReadAtLeast_loop_spec fuel : forall r buf n,
  n <= length buf -> length r < fuel ->
  exists res, ReadAtLeast_loop fuel r buf (length buf) n None = Some res /\
              fill_post r buf n res.
Proof.
  induction fuel as [|fuel IH]; intros r buf n Hn Hfuel; [lia|].
  rewrite ReadAtLeast_loop_eq. rewrite bool_decide_eq_true_2 by reflexivity.
  rewrite andb_true_r.
  destruct (n <? length buf) eqn:Hlt.
  2:{ apply Nat.ltb_ge in Hlt. eexists; split; [reflexivity|].
      assert (n = length buf) as Hn' by lia.
      cbn. split; [lia|]. split; [lia|]. split.
      - exists []. rewrite app_nil_r. auto.
      - split; [lia|]. split; [auto|]. split; [auto | lia]. }
  apply Nat.ltb_lt in Hlt.
  destruct (Read r (length buf - n)) as [[bs err] r1] eqn:HR.
  destruct (Read_spec _ _ _ _ _ HR)
    as (Hlen & Hstr & Hr1 & Hcont & Hff & Hef & Hend).
  assert (Hcp : length (copy_at n bs buf) = length buf)
    by (apply copy_at_length; lia).
  assert (Htk : take (n + length bs) (copy_at n bs buf) = take n buf ++ bs)
    by (apply take_copy_at; lia).
  destruct err as [e|].
  - (* the read failed: the loop stops with what it has *)
    rewrite ReadAtLeast_loop_err. eexists; split; [reflexivity|].
    cbn. split; [lia|]. split; [lia|]. split; [exists bs; auto|].
    split; [lia|]. split; [exact Hff|]. split; [exact Hef|].
    intros Hf He _. apply Hend; auto.
  - destruct (Hcont eq_refl) as [Hfull | Hless].
    + (* the buffer is full *)
      rewrite ReadAtLeast_loop_full by lia. eexists; split; [reflexivity|].
      cbn. split; [lia|]. split; [lia|]. split; [exists bs; auto|].
      split; [lia|]. split; [exact Hff|]. split; [exact Hef | lia].
    + (* a segment is used up and the loop goes on *)
      destruct (IH r1 (copy_at n bs buf) (n + length bs)) as (res & Hres & Hpost);
        [lia | lia |].
      rewrite Hcp in Hres. exists res. split; [exact Hres|].
      destruct res as [[[n' e'] buf'] r']. cbn in Hpost |- *.
      destruct Hpost as (Hn' & Hb' & (d & Hd & Hs) & Hr' & Hff' & Hef' & Hend').
      rewrite Hcp in *. split; [lia|]. split; [lia|]. split.
      * exists (bs ++ d). rewrite Hd, Htk, Hstr, Hs, !app_assoc. auto.
      * split; [lia|]. split; [auto|]. split; [auto|]. auto.
Qed.

(** [io.ReadFull] returns, given one unit of fuel per segment of the script
    and one more; [buf[:n]] then holds the next [n] bytes of the source, and
    a source whose reads do not fail and whose EOF is final is used up when
    the buffer is not filled. *)
Lemma ReadFull_spec fuel r buf :
  length r < fuel ->
  exists n err buf' r',
    ReadFull fuel r buf = Some (n, err, buf', r') /\
    n <= length buf /\ length buf' = length buf /\
    stream r = take n buf' ++ stream r' /\
    length r' <= length r /\
    (fault_free r = true -> fault_free r' = true) /\
    (eof_final r = true -> eof_final r' = true) /\
    (fault_free r = true -> eof_final r = true -> n < length buf -> r' = []).
Proof.
  intros Hfuel. unfold ReadFull, ReadAtLeast.
  rewrite Nat.ltb_irrefl.
  destruct (ReadAtLeast_loop_spec fuel r buf 0) as (res & -> & Hpost);
    [lia | lia |].
  destruct res as [[[n e] buf'] r']. cbn in Hpost.
  destruct Hpost as (Hn & Hb & (d & Hd & Hs) & Hr & Hff).
  eexists _, _, _, _. split; [reflexivity|].
  rewrite take_0, app_nil_l in Hd. rewrite <- Hd in Hs.
  split; [lia|]. split; [lia|]. split; [exact Hs|]. split; [lia|]. exact Hff.
Qed.

End ReadFull.

(** ** The [for] loop of [Run] *)

Section SendLoop.

Implicit Types (buf : list byte) (fuel : nat) (r : reader) (w : World)
  (cs : list Call) (ex : LoopExit).

Lemma loop_trace_chunks_nonempty w sent cs ex :
  loop_trace w sent cs ex -> Forall (fun p => 0 < length p) (chunks cs).
Proof.
  induction 1 as [sent err | sent n err p e Hn Hp Hs
                 | sent n err p cs ex Hn Hp Hs _ IH]; cbn.
  - constructor.
  - constructor; [lia | constructor].
  - constructor; [lia | exact IH].
Qed.

(** Chunks that are all non-empty and add up to nothing: there are none. *)
Lemma nonempty_concat_nil (ps : list (list byte)) (rest : list byte) :
  Forall (fun p => 0 < length p) ps -> [] = concat ps ++ rest -> ps = [].
Proof.
  intros HF Heq. destruct ps as [|p ps]; [reflexivity|].
  inversion HF as [|? ? Hp _]; subst.
  destruct p; cbn in *; [lia | discriminate].
Qed.

(** The loop returns on every script, given [fuel_for r] fuel or more; its
    calls have the shape [loop_trace]; the chunks it hands to [Send] are,
    in order, a prefix of the bytes of the source, all of them when no read
    fails, EOF is final and the loop ends by [break]; no chunk exceeds the
    buffer, and on such a source all but the last fill it. *)
Lemma sendLoop_spec w fuel : forall r buf sent,
  fuel_for r <= fuel ->
  exists cs ex,
    sendLoop fuel w r buf sent = Some (cs, ex) /\
    loop_trace w sent cs ex /\
    (exists rest, stream r = concat (chunks cs) ++ rest /\
                  (fault_free r = true -> eof_final r = true -> ex = Break ->
                   0 < length buf -> rest = [])) /\
    Forall (fun p => length p <= length buf) (chunks cs) /\
    (fault_free r = true -> eof_final r = true ->
     full_but_last (length buf) (chunks cs)).
Proof.
  unfold fuel_for.
  induction fuel as [|fuel IH]; intros r buf sent Hfuel; [lia|].
  cbn [sendLoop].
  destruct (ReadFull_spec (S fuel) r buf)
    as (n & err & buf' & r' & -> & Hn & Hb & Hs & Hr & Hff & Hef & Hend); [lia|].
  assert (Hlen : length (take n buf') = n) by (rewrite length_take; lia).
  destruct (n =? 0) eqn:Hz.
  - (* nothing read: break *)
    apply Nat.eqb_eq in Hz. subst n.
    eexists _, _. split; [reflexivity|]. split; [constructor|].
    cbn [chunks concat app]. split; [|split].
    + exists (stream r). split; [reflexivity|].
      intros Hf He _ Hbuf.
      rewrite Hs, take_0, Hend by (auto; lia). reflexivity.
    + constructor.
    + intros _ _ i p Hi. cbn in Hi. discriminate.
  - apply Nat.eqb_neq in Hz.
    destruct (stream_Send w sent (Chunk (take n buf'))) as [e|] eqn:Hsend.
    + (* the send fails: return 1 *)
      eexists _, _. split; [reflexivity|].
      split; [constructor; [lia | exact Hlen | exact Hsend]|].
      cbn [chunks concat]. rewrite app_nil_r. split; [|split].
      * exists (stream r'). split; [exact Hs | discriminate].
      * constructor; [lia | constructor].
      * intros _ _ i p Hi Hlt. cbn in Hlt. lia.
    + (* the chunk is sent and the loop goes round *)
      assert (Hsl : length (stream r) = n + length (stream r'))
        by (rewrite Hs, length_app, Hlen; reflexivity).
      destruct (IH r' buf' (sent ++ [Chunk (take n buf')]))
        as (cs & ex & -> & Htr & (rest & Hrest & Hall) & Hle & Hfull); [lia|].
      eexists _, _. split; [reflexivity|].
      split; [constructor; [lia | exact Hlen | exact Hsend | exact Htr]|].
      cbn [chunks concat]. split; [|split].
      * exists rest. split; [rewrite Hs, Hrest, app_assoc; reflexivity|].
        intros Hf He Hex Hbuf. apply Hall; auto; lia.
      * constructor; [lia | rewrite <- Hb; exact Hle].
      * intros Hf He [|i] p Hi Hlt; cbn in Hi, Hlt.
        -- injection Hi as <-. rewrite Hlen.
           destruct (decide (n < length buf)) as [Hshort|]; [|lia].
           exfalso. rewrite (Hend Hf He Hshort) in Hrest. cbn in Hrest.
           pose proof (nonempty_concat_nil _ _
                         (loop_trace_chunks_nonempty _ _ _ _ Htr) Hrest) as Hnone.
           rewrite Hnone in Hlt. cbn in Hlt. lia.
        -- rewrite <- Hb. apply (Hfull (Hff Hf) (Hef He) i p Hi). lia.
Qed.

End SendLoop.

(** ** [Run] as a whole *)

Section Run.

Implicit Types (w : World) (args : list string) (o : Outcome).

Lemma buf0_length : length buf0 = bufSize.
Proof. unfold buf0. apply length_replicate. Qed.

(** A reader that is not standard input was opened from [args[0]]. *)
Lemma initReader_file w args f r closer :
  initReader w args = inr (f, r, closer) -> f <> Stdin ->
  exists arg0 rest, args = arg0 :: rest.
Proof.
  destruct args as [|arg0 rest]; cbn.
  - destruct (IsTerminal w); [discriminate|]. intros [= <- _ _]. congruence.
  - eauto.
Qed.

(** [Run] returns on every script, along one of the seven ways. *)
Lemma Run_view w args : exists o, Run w args = Some o /\ run_view w args o.
Proof.
  unfold Run.
  destruct (c_Init w args) as [e|] eqn:Hinit.
  { eexists; split; [reflexivity|]. econstructor; eauto. }
  destruct (initReader w args) as [e|[[f r] closer]] eqn:Hrd.
  { eexists; split; [reflexivity|]. econstructor; eauto. }
  destruct (client_RestoreSnapshot w) as [e|] eqn:Hch.
  { eexists; split; [reflexivity|]. econstructor; eauto. }
  destruct (stream_Send w [] Open) as [e|] eqn:Hopen.
  { eexists; split; [reflexivity|]. eapply view_open; eauto. }
  destruct (sendLoop_spec w (fuel_for r) r buf0 [Open])
    as (cs & ex & Hloop & _); [lia|].
  rewrite Hloop. destruct ex as [|code msg].
  2:{ eexists; split; [reflexivity|]. eapply view_chunk; eauto. }
  destruct (stream_CloseAndRecv w (sent_of (Send Open None :: cs))) as [e|] eqn:Hres.
  { eexists; split; [reflexivity|]. eapply view_result; eauto. }
  destruct (decide (f = Stdin)) as [->|Hf].
  - eexists; split; [reflexivity|]. eapply view_restored; eauto.
    destruct (decide (Stdin = Stdin)); [reflexivity | contradiction].
  - destruct (initReader_file _ _ _ _ _ Hrd Hf) as (arg0 & rest & ->).
    eexists; split; [reflexivity|]. eapply view_restored; eauto.
    cbn. destruct (decide (f = Stdin)); [contradiction | reflexivity].
Qed.

(** What [sendLoop_spec] says of the loop as [Run] starts it. *)
Lemma sendLoop_run w r cs ex :
  sendLoop (fuel_for r) w r buf0 [Open] = Some (cs, ex) ->
  loop_trace w [Open] cs ex /\
  (exists rest, stream r = concat (chunks cs) ++ rest /\
                (fault_free r = true -> eof_final r = true -> ex = Break ->
                 rest = [])) /\
  Forall (fun p => length p <= bufSize) (chunks cs) /\
  (fault_free r = true -> eof_final r = true ->
   full_but_last bufSize (chunks cs)).
Proof.
  intros Hloop.
  destruct (sendLoop_spec w (fuel_for r) r buf0 [Open])
    as (cs' & ex' & Hloop' & Htr & (rest & Hrest & Hall) & Hle & Hfull); [lia|].
  rewrite Hloop in Hloop'. injection Hloop' as <- <-.
  rewrite buf0_length in *.
  split; [exact Htr|]. split; [|split; [exact Hle | exact Hfull]].
  exists rest. split; [exact Hrest|]. intros Hf He Hex.
  apply Hall; auto. unfold bufSize. lia.
Qed.

Lemma chunks_app (a b : list Call) : chunks (a ++ b) = chunks a ++ chunks b.
Proof.
  induction a as [|[n e|[|p] e|e] a IH]; cbn; rewrite ?IH; reflexivity.
Qed.

Lemma fills_app (a b : list Call) : fills (a ++ b) = fills a ++ fills b.
Proof.
  induction a as [|[n e|ev e|e] a IH]; cbn; rewrite ?IH; reflexivity.
Qed.

Lemma wire_app (a b : list Call) : wire (a ++ b) = wire a ++ wire b.
Proof.
  induction a as [|[n e|ev e|e] a IH]; cbn; rewrite ?IH; reflexivity.
Qed.

Lemma half_closes_app (a b : list Call) :
  half_closes (a ++ b) = half_closes a + half_closes b.
Proof.
  induction a as [|[n e|ev e|e] a IH]; cbn; rewrite ?IH; reflexivity.
Qed.

(** The loop itself never half-closes. *)
Lemma loop_trace_half_closes w sent cs ex :
  loop_trace w sent cs ex -> half_closes cs = 0.
Proof. induction 1; cbn; auto. Qed.

(** The loop ends by [break] on a stream on which no [Send] fails. *)
Lemma loop_trace_sends_ok w sent cs ex :
  (forall sent ev, stream_Send w sent ev = None) ->
  loop_trace w sent cs ex -> ex = Break.
Proof.
  intros Hok. induction 1 as [| sent n err p e _ _ Hs |]; auto.
  rewrite Hok in Hs. discriminate.
Qed.

End Run.


(** ** More fuel changes nothing *)

Section Fuel.

Implicit Types (buf : list byte) (fuel : nat) (r : reader) (w : World).

Lemma ReadAtLeast_loop_mono fuel : forall fuel' r buf min n err res,
  fuel <= fuel' ->
  ReadAtLeast_loop fuel r buf min n err = Some res ->
  ReadAtLeast_loop fuel' r buf min n err = Some res.
Proof.
  induction fuel as [|fuel IH]; intros fuel' r buf min n err res Hle;
    rewrite (ReadAtLeast_loop_eq _ r), (ReadAtLeast_loop_eq fuel' r);
    destruct ((n <? min) && bool_decide (err = None)); auto; [discriminate|].
  destruct fuel' as [|fuel']; [lia|].
  destruct (Read r (length buf - n)) as [[bs e] r'].
  apply IH. lia.
Qed.

Lemma ReadFull_mono fuel fuel' r buf res :
  fuel <= fuel' -> ReadFull fuel r buf = Some res -> ReadFull fuel' r buf = Some res.
Proof.
  intros Hle. unfold ReadFull, ReadAtLeast.
  destruct (length buf <? length buf); [auto|].
  destruct (ReadAtLeast_loop fuel r buf (length buf) 0 None) as [x|] eqn:Hx;
    [|discriminate].
  rewrite (ReadAtLeast_loop_mono _ _ _ _ _ _ _ _ Hle Hx). auto.
Qed.

Lemma sendLoop_mono w fuel : forall fuel' r buf sent res,
  fuel <= fuel' ->
  sendLoop fuel w r buf sent = Some res ->
  sendLoop fuel' w r buf sent = Some res.
Proof.
  induction fuel as [|fuel IH]; intros fuel' r buf sent res Hle; [discriminate|].
  destruct fuel' as [|fuel']; [lia|].
  cbn [sendLoop].
  destruct (ReadFull (S fuel) r buf) as [[[[n e] buf'] r']|] eqn:HRF; [|discriminate].
  rewrite (ReadFull_mono _ (S fuel') _ _ _ Hle HRF).
  destruct (n =? 0); [auto|].
  destruct (stream_Send w sent (Chunk (take n buf'))); [auto|].
  destruct (sendLoop fuel w r' buf' (sent ++ [Chunk (take n buf')])) as [x|] eqn:Hx;
    [|discriminate].
  rewrite (IH fuel' _ _ _ _ ltac:(lia) Hx). auto.
Qed.

End Fuel.

(** ** What the calls of the loop look like *)

Section Traces.

Implicit Types (w : World) (cs : list Call) (ex : LoopExit).

(** The fills of the loop: all but the last return bytes, the loop ends by
    [break] exactly when the last returns none, and otherwise it ends on a
    [Send] that failed. *)
Lemma loop_trace_fills w sent cs ex :
  loop_trace w sent cs ex ->
  exists ns n,
    fills cs = ns ++ [n] /\ Forall (fun k => 0 < k) ns /\
    (ex = Break <-> n = 0) /\
    (n <> 0 -> exists cs' p e,
        cs = cs' ++ [Send (Chunk p) (Some e)] /\
        ex = Return 1%Z ("failed to write snapshot data: " +:+ Error e)).
Proof.
  induction 1 as [sent err | sent n err p e Hn Hp Hs
                 | sent n err p cs ex Hn Hp Hs _ IH].
  - exists [], 0. cbn. repeat split; auto. intros; lia.
  - exists [], n. cbn. split; [reflexivity|]. split; [constructor|]. split.
    + split; [discriminate | lia].
    + intros _. exists [io_ReadFull n err], p, e. auto.
  - destruct IH as (ns & k & Hf & Hpos & Hiff & Hab).
    exists (n :: ns), k. cbn. rewrite Hf. split; [reflexivity|].
    split; [constructor; auto|]. split; [exact Hiff|].
    intros Hk. destruct (Hab Hk) as (cs' & q & e & -> & ->).
    exists (io_ReadFull n err :: Send (Chunk p) None :: cs'), q, e. auto.
Qed.

(** One chunk for every fill that returned bytes, of that many bytes; the
    fill that ends the loop by [break] returned none. *)
Lemma loop_trace_fills_chunks w sent cs ex :
  loop_trace w sent cs ex ->
  fills cs = map length (chunks cs) ++
             match ex with Break => [0] | Return _ _ => [] end.
Proof.
  induction 1 as [sent err | sent n err p e Hn Hp Hs
                 | sent n err p cs ex Hn Hp Hs _ IH]; cbn.
  - reflexivity.
  - rewrite Hp. reflexivity.
  - rewrite IH, Hp. reflexivity.
Qed.

(** On the stream the loop is a run of Chunk sends, each carrying one chunk;
    every one succeeds when the loop ends by [break], and all but the last
    when it does not. *)
Lemma loop_trace_wire w sent cs ex :
  loop_trace w sent cs ex ->
  exists ps : list (list byte * option error),
    wire cs = map (fun x => Send (Chunk x.1) x.2) ps /\
    map fst ps = chunks cs /\
    match ex with
    | Break => Forall (fun x => x.2 = None) ps
    | Return code _ =>
        code = 1%Z /\
        exists ps' p e, ps = ps' ++ [(p, Some e)] /\ Forall (fun x => x.2 = None) ps'
    end.
Proof.
  induction 1 as [sent err | sent n err p e Hn Hp Hs
                 | sent n err p cs ex Hn Hp Hs _ IH].
  - exists []. cbn. auto.
  - exists [(p, Some e)]. cbn. repeat split; auto.
    exists [], p, e. auto.
  - destruct IH as (ps & Hw & Hc & Hex).
    exists ((p, None) :: ps). cbn. rewrite Hw, Hc. repeat split; auto.
    destruct ex as [|code msg].
    + constructor; auto.
    + destruct Hex as (-> & ps' & q & e & -> & Hok). split; [reflexivity|].
      exists ((p, None) :: ps'), q, e. split; [reflexivity|]. constructor; auto.
Qed.

(** A fill that returns no bytes is the last call of the loop. *)
Lemma loop_trace_empty_fill_last w sent cs ex :
  loop_trace w sent cs ex ->
  forall tail pre err c post,
    fills tail = [] ->
    cs ++ tail = pre ++ io_ReadFull 0 err :: c :: post ->
    exists tl, tail = c :: tl.
Proof.
  assert (Hno : forall tail pre err c post,
             fills tail = [] -> tail <> pre ++ io_ReadFull 0 err :: c :: post).
  { intros tail pre err c post Hf ->. rewrite fills_app in Hf. cbn in Hf.
    destruct (fills pre); discriminate. }
  induction 1 as [sent err0 | sent n err0 p e Hn Hp Hs
                 | sent n err0 p cs ex Hn Hp Hs _ IH];
    intros tail pre err c post Hf Heq.
  - destruct pre as [|x pre]; cbn in Heq.
    + injection Heq as _ ->. eauto.
    + injection Heq as _ Heq. exfalso. exact (Hno _ _ _ _ _ Hf Heq).
  - destruct pre as [|x [|y pre]]; cbn in Heq.
    + injection Heq as -> _ _. lia.
    + injection Heq as _ Heq _. discriminate.
    + injection Heq as _ _ Heq. exfalso. exact (Hno _ _ _ _ _ Hf Heq).
  - destruct pre as [|x [|y pre]]; cbn in Heq.
    + injection Heq as -> _ _. lia.
    + injection Heq as _ Heq _. discriminate.
    + injection Heq as _ _ Heq. eapply IH; eauto.
Qed.

End Traces.

(** Case analysis on the way a run takes; the loop hypotheses are named
    [Hl] (the loop), [Ho] (the Send of Open), [Hr] (the reader). *)
Ltac run_cases w args o :=
  let V := fresh "V" in
  let HR := fresh "HR" in
  destruct (Run_view w args) as (o & HR & V); exists o; split; [exact HR|];
  destruct V as [e Hi | e Hi Hr | f' r' cl' e Hi Hr Hc | f' r' cl' e Hi Hr Hc Ho
                | f' r' cl' cs code msg Hi Hr Hc Ho Hl
                | f' r' cl' cs e Hi Hr Hc Ho Hl Hres
                | f' r' cl' cs line Hline Hi Hr Hc Ho Hl Hres];
  cbn [calls status stderr ui_output closed].

(** ** The transfer reproduces the source *)

(** X13.  For every source that ends, whose reads do not fail and that
    returns end-of-stream only at its end, the payloads of the Chunk frames
    the client hands to [Send], concatenated in send order, are a prefix of
    the bytes of the source in every run, and are exactly those bytes --
    none lost, none twice, none out of order -- in every run that reaches
    the half-close, which is every run in which initialisation, the opening
    of the channel and all the [Send]s succeed; an empty source gives no
    Chunk frame at all. *)
Theorem chunks_reproduce_source w args f r closer :
  initReader w args = inr (f, r, closer) ->
  fault_free r = true -> eof_final r = true ->
  exists o,
    Run w args = Some o /\
    (exists rest, stream r = concat (chunks (calls o)) ++ rest) /\
    (half_closes (calls o) = 1 -> concat (chunks (calls o)) = stream r) /\
    (c_Init w args = None -> client_RestoreSnapshot w = None ->
     (forall sent ev, stream_Send w sent ev = None) ->
     half_closes (calls o) = 1) /\
    (stream r = [] -> chunks (calls o) = []).
Proof.
  intros Hrd Hff Hef. run_cases w args o;
    try (rewrite Hrd in Hr; injection Hr as <- <- <-).
  1-4: cbn; (split; [exists (stream r); reflexivity|]);
       (split; [discriminate|]); (split; [|reflexivity]);
       intros Hi' Hc' Hs'; try congruence;
       try (rewrite Hrd in Hr; discriminate);
       rewrite Hs' in Ho; discriminate.
  - (* a Send of a Chunk failed *)
    destruct (sendLoop_run _ _ _ _ Hl) as (Htr & (rest & Hrest & _) & _ & _).
    pose proof (loop_trace_half_closes _ _ _ _ Htr) as Hhc.
    cbn [chunks half_closes]. rewrite Hhc.
    split; [exists rest; exact Hrest|]. split; [discriminate|]. split.
    + intros _ _ Hs'. pose proof (loop_trace_sends_ok _ _ _ _ Hs' Htr). discriminate.
    + intros Hnil. rewrite Hnil in Hrest.
      exact (nonempty_concat_nil _ _ (loop_trace_chunks_nonempty _ _ _ _ Htr) Hrest).
  - (* half-close, the Result is an error *)
    destruct (sendLoop_run _ _ _ _ Hl) as (Htr & (rest & Hrest & Hall) & _ & _).
    pose proof (loop_trace_half_closes _ _ _ _ Htr) as Hhc.
    rewrite chunks_app, half_closes_app. cbn [chunks half_closes app].
    rewrite Hhc, app_nil_r. rewrite (Hall Hff Hef eq_refl), app_nil_r in Hrest.
    split; [exists []; rewrite app_nil_r; exact Hrest|].
    split; [auto|]. split; [reflexivity|].
    intros Hnil. rewrite Hnil in Hrest.
    apply (nonempty_concat_nil _ []
             (loop_trace_chunks_nonempty _ _ _ _ Htr)).
    rewrite app_nil_r. exact Hrest.
  - (* half-close, the Result is a success *)
    destruct (sendLoop_run _ _ _ _ Hl) as (Htr & (rest & Hrest & Hall) & _ & _).
    pose proof (loop_trace_half_closes _ _ _ _ Htr) as Hhc.
    rewrite chunks_app, half_closes_app. cbn [chunks half_closes app].
    rewrite Hhc, app_nil_r. rewrite (Hall Hff Hef eq_refl), app_nil_r in Hrest.
    split; [exists []; rewrite app_nil_r; exact Hrest|].
    split; [auto|]. split; [reflexivity|].
    intros Hnil. rewrite Hnil in Hrest.
    apply (nonempty_concat_nil _ []
             (loop_trace_chunks_nonempty _ _ _ _ Htr)).
    rewrite app_nil_r. exact Hrest.
Qed.

(** The witness of X13: a pipe that trickles 2500 bytes. *)
Lemma chunks_reproduce_source_witness :
  initReader (scenario.piped scenario.trickle) [] =
    inr (Stdin, scenario.trickle, None) /\
  fault_free scenario.trickle = true /\
  eof_final scenario.trickle = true /\
  exists o, Run (scenario.piped scenario.trickle) [] = Some o /\
            concat (chunks (calls o)) = stream scenario.trickle.
Proof.
  split; [reflexivity|]. split; [reflexivity|]. split; [reflexivity|].
  destruct (chunks_reproduce_source (scenario.piped scenario.trickle) []
              Stdin scenario.trickle None eq_refl eq_refl eq_refl)
    as (o & HR & _ & Heq & Hhc & _).
  exists o. split; [exact HR|].
  apply Heq. apply Hhc; reflexivity.
Defined.

(** C1, the code at the failing input.  A file holds 1025 bytes and its
    second read fails.  The run is a complete session -- Open, one Chunk,
    the half-close, the message of success, exit status 0 -- and the Chunk
    frames carry the first 1024 bytes only: the last byte of the source is
    in no frame. *)
Theorem failed_read_loses_bytes :
  exists o,
    Run (scenario.on_disk "backup.snap" scenario.faulty_file) ["backup.snap"] = Some o /\
    wire (calls o) =
      [Send Open None; Send (Chunk (replicate 1024 "A"%byte)) None;
       CloseAndRecv None] /\
    status o = 0%Z /\
    ui_output o = ["Server data restored from 'backup.snap'."] /\
    concat (chunks (calls o)) = replicate 1024 "A"%byte /\
    stream scenario.faulty_file = replicate 1024 "A"%byte ++ scenario.bytes "B".
Proof.
  eexists. split; [vm_compute; reflexivity|].
  repeat split; vm_compute; reflexivity.
Qed.

(** ** The size of the chunks *)

(** C3, as amended.  Every Chunk frame the client sends carries at most
    1024 bytes; and when the reads of the source do not fail and the source
    returns end-of-stream only at its end, every Chunk but the last carries
    exactly 1024 bytes, however few bytes each read of the source delivers
    (the scripts range over all sizes of reads, empty ones too). *)
Theorem chunk_sizes w args :
  exists o,
    Run w args = Some o /\
    Forall (fun p => length p <= 1024) (chunks (calls o)) /\
    (forall f r closer,
        initReader w args = inr (f, r, closer) ->
        fault_free r = true -> eof_final r = true ->
        full_but_last 1024 (chunks (calls o))).
Proof.
  run_cases w args o.
  1-4: cbn; split; [apply Forall_nil_2|]; intros ? ? ? _ _ _ i p Hnone;
       rewrite lookup_nil in Hnone; discriminate.
  - destruct (sendLoop_run _ _ _ _ Hl) as (_ & _ & Hle & Hfull).
    cbn [chunks]. split; [exact Hle|].
    intros f r closer Hrd Hff Hef. rewrite Hrd in Hr. injection Hr as <- <- <-.
    exact (Hfull Hff Hef).
  - destruct (sendLoop_run _ _ _ _ Hl) as (_ & _ & Hle & Hfull).
    rewrite chunks_app. cbn [chunks app]. rewrite app_nil_r. split; [exact Hle|].
    intros f r closer Hrd Hff Hef. rewrite Hrd in Hr. injection Hr as <- <- <-.
    exact (Hfull Hff Hef).
  - destruct (sendLoop_run _ _ _ _ Hl) as (_ & _ & Hle & Hfull).
    rewrite chunks_app. cbn [chunks app]. rewrite app_nil_r. split; [exact Hle|].
    intros f r closer Hrd Hff Hef. rewrite Hrd in Hr. injection Hr as <- <- <-.
    exact (Hfull Hff Hef).
Qed.

(** The witness of C3: 2500 bytes trickling in go out as 1024, 1024, 452. *)
Lemma chunk_sizes_witness :
  exists o, Run (scenario.piped scenario.trickle) [] = Some o /\
            map length (chunks (calls o)) = [1024; 1024; 452] /\
            full_but_last 1024 (chunks (calls o)).
Proof.
  destruct (chunk_sizes (scenario.piped scenario.trickle) []) as (o & HR & _ & Hfull).
  exists o. split; [exact HR|]. split.
  - vm_compute in HR. injection HR as <-. vm_compute. reflexivity.
  - apply (Hfull Stdin scenario.trickle None); reflexivity.
Defined.

(** C3, as stated, fails: no read of the reopened FIFO fails, all [Send]s
    succeed and the run returns 0, yet the first of its three Chunk frames
    carries 1000 bytes.  The fill that met the end-of-stream after 1000
    bytes is sent as it is, and the loop reads on. *)
Lemma chunk_sizes_counterexample :
  fault_free scenario.reopened = true /\
  exists o,
    Run (scenario.piped scenario.reopened) [] = Some o /\
    status o = 0%Z /\
    fills (calls o) = [1000; 1024; 476; 0] /\
    map length (chunks (calls o)) = [1000; 1024; 476] /\
    chunks (calls o) !! 0 = Some (replicate 1000 "a"%byte).
Proof.
  split; [reflexivity|].
  eexists. split; [vm_compute; reflexivity|].
  repeat split; vm_compute; reflexivity.
Qed.

(** C9.  The client never sends a Chunk frame of no bytes: every Chunk it
    hands to [Send] carries at least one byte, for a fill that returns no
    bytes is followed by no [Send] -- the call after it, if any, is the
    half-close. *)
Theorem no_empty_chunk w args :
  exists o,
    Run w args = Some o /\
    Forall (fun p => 0 < length p) (chunks (calls o)) /\
    (forall pre err c post,
        calls o = pre ++ io_ReadFull 0 err :: c :: post ->
        exists res, c = CloseAndRecv res).
Proof.
  run_cases w args o.
  1-3: cbn; split; [apply Forall_nil_2|]; intros [|? ?] ? ? ? Heq; discriminate.
  - cbn. split; [apply Forall_nil_2|]. intros [|? [|? ?]] ? ? ? Heq; discriminate.
  - destruct (sendLoop_run _ _ _ _ Hl) as (Htr & _).
    cbn [chunks]. split; [exact (loop_trace_chunks_nonempty _ _ _ _ Htr)|].
    intros [|x pre] err c post Heq; [discriminate|].
    injection Heq as _ Heq. rewrite <- (app_nil_r cs) in Heq.
    destruct (loop_trace_empty_fill_last _ _ _ _ Htr [] pre err c post eq_refl Heq)
      as (tl & Htl).
    discriminate.
  - destruct (sendLoop_run _ _ _ _ Hl) as (Htr & _).
    rewrite chunks_app. cbn [chunks app]. rewrite app_nil_r.
    split; [exact (loop_trace_chunks_nonempty _ _ _ _ Htr)|].
    intros [|x pre] err c post Heq; [discriminate|].
    injection Heq as _ Heq.
    destruct (loop_trace_empty_fill_last _ _ _ _ Htr [CloseAndRecv _]
                pre err c post eq_refl Heq) as (tl & Htl).
    injection Htl as <- _. eauto.
  - destruct (sendLoop_run _ _ _ _ Hl) as (Htr & _).
    rewrite chunks_app. cbn [chunks app]. rewrite app_nil_r.
    split; [exact (loop_trace_chunks_nonempty _ _ _ _ Htr)|].
    intros [|x pre] err c post Heq; [discriminate|].
    injection Heq as _ Heq.
    destruct (loop_trace_empty_fill_last _ _ _ _ Htr [CloseAndRecv _]
                pre err c post eq_refl Heq) as (tl & Htl).
    injection Htl as <- _. eauto.
Qed.

(** ** The loop ends *)

(** C8, as amended.  On every finite byte source the chunk-sending loop
    terminates: it returns the same calls and the same exit for every
    amount of fuel from [fuel_for r] on.  It goes round as long as the fills
    return bytes and the [Send]s succeed, and it is left by its [break]
    exactly when a fill returns no new bytes -- all fills but the last
    return some, and the exit is [Break] if and only if the last returns
    none.  The loop has one other way out, the [return 1] of [Run] after a
    [Send] that failed; on a stream on which no [Send] fails the loop
    therefore ends exactly on the first fill of zero bytes.  The fills are
    fills of the source: every fill that returned bytes was handed to
    [Send] as one chunk, the chunks are the bytes of the source in order,
    and on a source whose reads do not fail and that returns end-of-stream
    only at its end the loop does not break before all bytes are sent. *)
Theorem sendLoop_terminates w r buf sent :
  exists cs ex,
    (forall fuel, fuel_for r <= fuel -> sendLoop fuel w r buf sent = Some (cs, ex)) /\
    (exists ns n,
      fills cs = ns ++ [n] /\ Forall (fun k => 0 < k) ns /\
      (ex = Break <-> n = 0) /\
      (n <> 0 -> exists cs' p e,
          cs = cs' ++ [Send (Chunk p) (Some e)] /\
          ex = Return 1%Z ("failed to write snapshot data: " +:+ Error e)) /\
      ((forall sent' ev, stream_Send w sent' ev = None) -> ex = Break /\ n = 0)) /\
    fills cs = map length (chunks cs) ++
               match ex with Break => [0] | Return _ _ => [] end /\
    (exists rest, stream r = concat (chunks cs) ++ rest /\
                  (fault_free r = true -> eof_final r = true -> ex = Break ->
                   0 < length buf -> rest = [])).
Proof.
  destruct (sendLoop_spec w (fuel_for r) r buf sent)
    as (cs & ex & Hloop & Htr & Hrest & _); [lia|].
  exists cs, ex. split; [|split; [|split]].
  - intros fuel Hle. exact (sendLoop_mono _ _ _ _ _ _ _ Hle Hloop).
  - destruct (loop_trace_fills _ _ _ _ Htr) as (ns & n & Hf & Hpos & Hiff & Hab).
    exists ns, n. split; [exact Hf|]. split; [exact Hpos|].
    split; [exact Hiff|]. split; [exact Hab|].
    intros Hok. pose proof (loop_trace_sends_ok _ _ _ _ Hok Htr) as Hbr.
    split; [exact Hbr | apply Hiff; exact Hbr].
  - exact (loop_trace_fills_chunks _ _ _ _ Htr).
  - exact Hrest.
Qed.

(** C8, as stated, fails: the loop is left although no fill returned zero
    bytes.  Its one fill returns four bytes, the stream refuses the Chunk,
    and [Run] returns 1 from inside the loop. *)
Lemma sendLoop_terminates_counterexample :
  sendLoop (fuel_for [Data (scenario.bytes "AAAA")])
           (scenario.refusing [Data (scenario.bytes "AAAA")])
           [Data (scenario.bytes "AAAA")] buf0 [Open] =
    Some ([io_ReadFull 4 (Some ErrUnexpectedEOF);
           Send (Chunk (scenario.bytes "AAAA"))
                (Some (errorString "transport is closing"))],
          Return 1%Z "failed to write snapshot data: transport is closing") /\
  exists o,
    Run (scenario.refusing [Data (scenario.bytes "AAAA")]) [] = Some o /\
    fills (calls o) = [4] /\
    status o = 1%Z.
Proof.
  split; [vm_compute; reflexivity|].
  eexists. split; [vm_compute; reflexivity|].
  split; reflexivity.
Qed.

(** ** The order of the session *)

(** C4, as amended.  In every client run that reaches the protocol the
    calls on the stream are, in this order: one [Send] of Open, first;
    then [Send]s of Chunk frames whose payloads, in order, are a prefix of
    the bytes of the source; then, if and only if no [Send] failed, exactly
    one half-close [CloseAndRecv], the last call, on whose Result the exit
    status depends.  A [Send] that fails is the last call on the stream: the
    run returns 1 without a half-close.  So there is at most one half-close,
    and no Chunk before Open or after the half-close. *)
Theorem session_order w args f r closer :
  c_Init w args = None ->
  initReader w args = inr (f, r, closer) ->
  client_RestoreSnapshot w = None ->
  exists o,
    Run w args = Some o /\
    exists (res0 : option error) (ps : list (list byte * option error))
           (tail : list Call),
      wire (calls o) =
        Send Open res0 :: map (fun x => Send (Chunk x.1) x.2) ps ++ tail /\
      map fst ps = chunks (calls o) /\
      (exists rest, stream r = concat (map fst ps) ++ rest) /\
      half_closes (calls o) = length tail /\
      ((res0 = None /\ Forall (fun x => x.2 = None) ps /\
        exists res, tail = [CloseAndRecv res] /\ (status o = 0%Z <-> res = None))
       \/
       (tail = [] /\ status o = 1%Z /\
        ((res0 <> None /\ ps = []) \/
         (res0 = None /\ exists ps' p e,
             ps = ps' ++ [(p, Some e)] /\ Forall (fun x => x.2 = None) ps')))).
Proof.
  intros Hinit Hrd Hch. run_cases w args o; try congruence;
    rewrite Hrd in Hr; injection Hr as <- <- <-.
  - (* the Send of Open failed *)
    exists (Some e), [], []. cbn.
    split; [reflexivity|]. split; [reflexivity|].
    split; [exists (stream r); reflexivity|]. split; [reflexivity|].
    right. split; [reflexivity|]. split; [reflexivity|].
    left. split; [discriminate | reflexivity].
  - (* the Send of a Chunk failed *)
    destruct (sendLoop_run _ _ _ _ Hl) as (Htr & (rest & Hrest & _) & _ & _).
    destruct (loop_trace_wire _ _ _ _ Htr)
      as (ps & Hw & Hc' & -> & ps' & p & e0 & Hps & Hok).
    exists None, ps, []. cbn [wire chunks half_closes status length].
    rewrite Hw, app_nil_r, Hc', (loop_trace_half_closes _ _ _ _ Htr).
    split; [reflexivity|]. split; [reflexivity|].
    split; [exists rest; exact Hrest|]. split; [reflexivity|].
    right. split; [reflexivity|]. split; [reflexivity|].
    right. split; [reflexivity|]. eauto.
  - (* half-close, the Result is an error *)
    destruct (sendLoop_run _ _ _ _ Hl) as (Htr & (rest & Hrest & _) & _ & _).
    destruct (loop_trace_wire _ _ _ _ Htr) as (ps & Hw & Hc' & Hok).
    exists None, ps, [CloseAndRecv (Some e)].
    rewrite wire_app, chunks_app, half_closes_app.
    cbn [wire chunks half_closes app status length].
    rewrite Hw, Hc', app_nil_r, (loop_trace_half_closes _ _ _ _ Htr).
    split; [reflexivity|]. split; [reflexivity|].
    split; [exists rest; exact Hrest|]. split; [reflexivity|].
    left. split; [reflexivity|]. split; [exact Hok|].
    eexists. split; [reflexivity|]. split; discriminate.
  - (* half-close, the Result is a success *)
    destruct (sendLoop_run _ _ _ _ Hl) as (Htr & (rest & Hrest & _) & _ & _).
    destruct (loop_trace_wire _ _ _ _ Htr) as (ps & Hw & Hc' & Hok).
    exists None, ps, [CloseAndRecv None].
    rewrite wire_app, chunks_app, half_closes_app.
    cbn [wire chunks half_closes app status length].
    rewrite Hw, Hc', app_nil_r, (loop_trace_half_closes _ _ _ _ Htr).
    split; [reflexivity|]. split; [reflexivity|].
    split; [exists rest; exact Hrest|]. split; [reflexivity|].
    left. split; [reflexivity|]. split; [exact Hok|].
    eexists. split; [reflexivity|]. split; reflexivity.
Qed.

(** The witness of C4: four bytes piped in, on a stream that takes them. *)
Lemma session_order_witness :
  c_Init (scenario.piped [Data (scenario.bytes "AAAA")]) [] = None /\
  initReader (scenario.piped [Data (scenario.bytes "AAAA")]) [] =
    inr (Stdin, [Data (scenario.bytes "AAAA")], None) /\
  client_RestoreSnapshot (scenario.piped [Data (scenario.bytes "AAAA")]) = None /\
  exists o,
    Run (scenario.piped [Data (scenario.bytes "AAAA")]) [] = Some o /\
    wire (calls o) =
      [Send Open None; Send (Chunk (scenario.bytes "AAAA")) None; CloseAndRecv None] /\
    half_closes (calls o) = 1.
Proof.
  split; [reflexivity|]. split; [reflexivity|]. split; [reflexivity|].
  destruct (session_order (scenario.piped [Data (scenario.bytes "AAAA")]) []
              Stdin [Data (scenario.bytes "AAAA")] None eq_refl eq_refl eq_refl)
    as (o & HR & _).
  exists o. split; [exact HR|].
  vm_compute in HR. injection HR as <-. split; reflexivity.
Defined.

(** C4, as stated, fails: a run reaches the protocol, the stream takes Open
    and refuses the first Chunk, and the run returns 1 with no half-close at
    all -- not the exactly one half-close the claim gives every such run. *)
Lemma session_order_counterexample :
  c_Init (scenario.refusing [Data (scenario.bytes "AAAA")]) [] = None /\
  initReader (scenario.refusing [Data (scenario.bytes "AAAA")]) [] =
    inr (Stdin, [Data (scenario.bytes "AAAA")], None) /\
  client_RestoreSnapshot (scenario.refusing [Data (scenario.bytes "AAAA")]) = None /\
  exists o,
    Run (scenario.refusing [Data (scenario.bytes "AAAA")]) [] = Some o /\
    wire (calls o) =
      [Send Open None;
       Send (Chunk (scenario.bytes "AAAA")) (Some (errorString "transport is closing"))] /\
    half_closes (calls o) = 0 /\
    status o = 1%Z.
Proof.
  split; [reflexivity|]. split; [reflexivity|]. split; [reflexivity|].
  eexists. split; [vm_compute; reflexivity|].
  split; [reflexivity|]. split; reflexivity.
Qed.

(** ** Failures and the exit status *)

(** X1.  What the exit status of [Run] tells, on a source that ends (on
    one that delivers bytes for ever the loop need not end, and [Run] need
    not return): it is 0 or 1; it is 0 exactly when the run ends on a
    half-close whose Result is a success, and then one line is printed and
    nothing goes to standard error; when it is 1 and initialisation
    succeeded, one message goes to standard error.  The errors of
    [io.ReadFull] appear nowhere in this. *)
Lemma Run_status w args :
  exists o,
    Run w args = Some o /\
    (status o = 0%Z \/ status o = 1%Z) /\
    (status o = 0%Z <-> exists cs, calls o = cs ++ [CloseAndRecv None]) /\
    (status o = 0%Z -> stderr o = [] /\ exists line, ui_output o = [line]) /\
    (status o = 1%Z -> c_Init w args = None ->
     ui_output o = [] /\ exists msg, stderr o = [msg]).
Proof.
  run_cases w args o.
  1-4: split; [right; reflexivity|]; split;
       [split; [discriminate | intros ([|? [|? ?]] & Heq); discriminate]|];
       split; [discriminate|]; intros _ Hi'; try congruence; eauto.
  - destruct (sendLoop_run _ _ _ _ Hl) as (Htr & _).
    destruct (loop_trace_wire _ _ _ _ Htr) as (ps & Hw & _ & -> & ps' & p & e0 & Hps & _).
    split; [right; reflexivity|]. split; [split; [discriminate|]|].
    + intros (cs' & Heq). exfalso.
      assert (Hhc : half_closes (Send Open None :: cs) = 0)
        by (cbn; exact (loop_trace_half_closes _ _ _ _ Htr)).
      rewrite Heq, half_closes_app in Hhc. cbn in Hhc. lia.
    + split; [discriminate|]. eauto.
  - split; [right; reflexivity|]. split; [split; [discriminate|]|].
    + intros (cs' & Heq). apply app_inj_tail in Heq. destruct Heq as [_ Heq].
      discriminate.
    + split; [discriminate|]. eauto.
  - split; [left; reflexivity|]. split; [split; [eauto|reflexivity]|].
    split; [eauto | discriminate].
Qed.

(** C2, the code at the failing input.  A read of the pipe fails after four
    bytes with an error that is not end-of-stream.  [Run] does not abort: it
    sends the four bytes, reads again, sends what the next read delivers,
    half-closes, prints that the data were restored and returns 0; nothing
    is written to standard error. *)
Theorem read_failure_ignored :
  Run (scenario.piped scenario.faulty_pipe) [] =
  Some {| status := 0%Z;
          stderr := [];
          ui_output := ["Server data restored."];
          calls :=
            [Send Open None;
             io_ReadFull 4 (Some (errorString "read /dev/stdin: input/output error"));
             Send (Chunk (scenario.bytes "AAAA")) None;
             io_ReadFull 4 (Some ErrUnexpectedEOF);
             Send (Chunk (scenario.bytes "BBBB")) None;
             io_ReadFull 0 (Some EOF);
             CloseAndRecv None];
          closed := None |}.
Proof. vm_compute. reflexivity. Qed.

(** C6, the code at the failing input.  The second read of a file of 1025
    bytes fails.  [Run] sends the first 1024 bytes, takes the failed read
    for the end of the data, half-closes and, the server accepting,
    returns 0 with the message of success and nothing on standard error:
    a failure to read the source with exit status 0. *)
Theorem read_failure_exit_status :
  exists o,
    Run (scenario.on_disk "backup.snap" scenario.faulty_file) ["backup.snap"] = Some o /\
    status o = 0%Z /\
    stderr o = [] /\
    ui_output o = ["Server data restored from 'backup.snap'."] /\
    fills (calls o) = [1024; 0] /\
    In (io_ReadFull 0 (Some (errorString "read backup.snap: input/output error")))
       (calls o) /\
    length (concat (chunks (calls o))) = 1024 /\
    length (stream scenario.faulty_file) = 1025.
Proof.
  eexists. split; [vm_compute; reflexivity|].
  repeat split; try reflexivity.
  cbn. do 3 right. left. reflexivity.
Qed.

(** ** Where the snapshot is read from *)

(** C7.  [initReader] selects the source: a first argument ["-"] gives
    standard input, whether or not standard input is a terminal; any other
    first argument is opened as a file, an error of the opening being
    returned as it is, and the opened file is also the closer; no argument
    gives standard input unless standard input is a terminal, and then the
    error "stdin is a terminal, refusing to use (use '-' to force)" and no
    reader. *)
Theorem initReader_policy w :
  (forall rest, initReader w ("-" :: rest) = inr (Stdin, os_Stdin w, None)) /\
  (forall path rest, path <> "-" ->
     initReader w (path :: rest) =
       match os_Open w path with
       | inl err => inl err
       | inr content => inr (File path, content, Some (File path))
       end) /\
  initReader w [] =
    (if IsTerminal w
     then inl (errorString "stdin is a terminal, refusing to use (use '-' to force)")
     else inr (Stdin, os_Stdin w, None)).
Proof.
  split; [|split].
  - intros rest. reflexivity.
  - intros path rest Hne. cbn. destruct (decide (path = "-")); [contradiction|].
    reflexivity.
  - reflexivity.
Qed.

(** The witness of C7: standard input is a terminal; the dash still gives
    it, a named file is opened, a missing file gives the error of the
    opening, and no argument is refused. *)
Lemma initReader_policy_witness :
  initReader (scenario.on_disk "backup.snap" scenario.faulty_file) ["-"] =
    inr (Stdin, [], None) /\
  initReader (scenario.on_disk "backup.snap" scenario.faulty_file) ["backup.snap"] =
    inr (File "backup.snap", scenario.faulty_file, Some (File "backup.snap")) /\
  initReader (scenario.on_disk "backup.snap" scenario.faulty_file) ["other"] =
    inl (errorString "open other: no such file or directory") /\
  initReader (scenario.on_disk "backup.snap" scenario.faulty_file) [] =
    inl (errorString "stdin is a terminal, refusing to use (use '-' to force)").
Proof.
  destruct (initReader_policy (scenario.on_disk "backup.snap" scenario.faulty_file))
    as (Hdash & Hpath & Hnone).
  split; [exact (Hdash [])|]. split; [|split].
  - rewrite (Hpath "backup.snap" []) by discriminate. reflexivity.
  - rewrite (Hpath "other" []) by discriminate. reflexivity.
  - exact Hnone.
Defined.

(** ** The environment of a deployment *)

Section Env.

Import component.

(** C5.  For every configuration [c] the map [Env c] binds
    DEVFLOW_DEPLOYMENT_ID to [c.Id].  With an empty [c.ServerAddr] it holds
    DEVFLOW_SERVER_DISABLE and neither DEVFLOW_SERVER_ADDR nor
    DEVFLOW_SERVER_INSECURE; with a non-empty one it binds
    DEVFLOW_SERVER_ADDR to [c.ServerAddr], holds DEVFLOW_SERVER_INSECURE if
    and only if [c.ServerInsecure], and does not hold the disable marker.
    So the disable marker and the server address are never both there; and
    the map holds no other key. *)
Theorem Env_variables (c : DeploymentConfig) :
  Env c !! "DEVFLOW_DEPLOYMENT_ID" = Some (Id c) /\
  (ServerAddr c = "" ->
     is_Some (Env c !! "DEVFLOW_SERVER_DISABLE") /\
     Env c !! "DEVFLOW_SERVER_ADDR" = None /\
     Env c !! "DEVFLOW_SERVER_INSECURE" = None) /\
  (ServerAddr c <> "" ->
     Env c !! "DEVFLOW_SERVER_ADDR" = Some (ServerAddr c) /\
     (is_Some (Env c !! "DEVFLOW_SERVER_INSECURE") <-> ServerInsecure c = true) /\
     Env c !! "DEVFLOW_SERVER_DISABLE" = None) /\
  ~ (is_Some (Env c !! "DEVFLOW_SERVER_DISABLE") /\
     is_Some (Env c !! "DEVFLOW_SERVER_ADDR")) /\
  (forall k, is_Some (Env c !! k) ->
     k = "DEVFLOW_DEPLOYMENT_ID" \/ k = "DEVFLOW_SERVER_DISABLE" \/
     k = "DEVFLOW_SERVER_ADDR" \/ k = "DEVFLOW_SERVER_INSECURE").
Proof.
  unfold Env. destruct c as [id addr insecure]. cbn [Id ServerAddr ServerInsecure].
  destruct (decide (addr = "")) as [->|Hne]; [|destruct insecure].
  - split; [by simplify_map_eq|]. split.
    { intros _. by simplify_map_eq. }
    split; [congruence|]. split.
    { intros [_ [v Hv]]. by simplify_map_eq. }
    intros k [v Hv].
    destruct (decide (k = "DEVFLOW_SERVER_DISABLE")) as [->|]; [auto|].
    destruct (decide (k = "DEVFLOW_DEPLOYMENT_ID")) as [->|]; [auto|].
    by simplify_map_eq.
  - split; [by simplify_map_eq|]. split; [contradiction|]. split.
    { intros _. split; [by simplify_map_eq|]. split; [|by simplify_map_eq].
      split; [reflexivity|]. intros _. by simplify_map_eq. }
    split.
    { intros [[v Hv] _]. by simplify_map_eq. }
    intros k [v Hv].
    destruct (decide (k = "DEVFLOW_SERVER_INSECURE")) as [->|]; [auto|].
    destruct (decide (k = "DEVFLOW_SERVER_ADDR")) as [->|]; [auto|].
    destruct (decide (k = "DEVFLOW_DEPLOYMENT_ID")) as [->|]; [auto|].
    by simplify_map_eq.
  - split; [by simplify_map_eq|]. split; [contradiction|]. split.
    { intros _. split; [by simplify_map_eq|]. split; [|by simplify_map_eq].
      split; [|discriminate]. intros [v Hv]. by simplify_map_eq. }
    split.
    { intros [[v Hv] _]. by simplify_map_eq. }
    intros k [v Hv].
    destruct (decide (k = "DEVFLOW_SERVER_ADDR")) as [->|]; [auto|].
    destruct (decide (k = "DEVFLOW_DEPLOYMENT_ID")) as [->|]; [auto|].
    by simplify_map_eq.
Qed.

(** C10.  Whenever [Env c] holds DEVFLOW_SERVER_DISABLE or
    DEVFLOW_SERVER_INSECURE it binds it to the string "1"; and
    DEVFLOW_DEPLOYMENT_ID is always there, bound to [c.Id], so bound to the
    empty string when [c.Id] is empty. *)
Theorem Env_marker_values (c : DeploymentConfig) :
  (forall v, Env c !! "DEVFLOW_SERVER_DISABLE" = Some v -> v = "1") /\
  (forall v, Env c !! "DEVFLOW_SERVER_INSECURE" = Some v -> v = "1") /\
  Env c !! "DEVFLOW_DEPLOYMENT_ID" = Some (Id c) /\
  (forall addr insecure,
     Env {| Id := ""; ServerAddr := addr; ServerInsecure := insecure |}
       !! "DEVFLOW_DEPLOYMENT_ID" = Some "").
Proof.
  assert (Hid : forall c', Env c' !! "DEVFLOW_DEPLOYMENT_ID" = Some (Id c')).
  { intros [id addr insecure]. unfold Env. cbn [Id ServerAddr ServerInsecure].
    destruct (decide (addr = "")); [|destruct insecure]; by simplify_map_eq. }
  split; [|split; [|split]].
  - intros v. unfold Env. destruct c as [id addr insecure].
    cbn [Id ServerAddr ServerInsecure].
    destruct (decide (addr = "")); [|destruct insecure]; intros Hv;
      by simplify_map_eq.
  - intros v. unfold Env. destruct c as [id addr insecure].
    cbn [Id ServerAddr ServerInsecure].
    destruct (decide (addr = "")); [|destruct insecure]; intros Hv;
      by simplify_map_eq.
  - apply Hid.
  - intros addr insecure. apply Hid.
Qed.

End Env.

(** * Further properties of the restore command *)

Section MoreTraces.

Implicit Types (w : World) (cs : list Call) (ex : LoopExit).

Lemma sent_of_app (a b : list Call) : sent_of (a ++ b) = sent_of a ++ sent_of b.
Proof.
  induction a as [|[n e|ev [e|]|e] a IH]; cbn; rewrite ?IH; reflexivity.
Qed.

(** When the loop ends by [break] the stream has taken every chunk. *)
Lemma loop_trace_sent w sent cs ex :
  loop_trace w sent cs ex -> ex = Break -> sent_of cs = map Chunk (chunks cs).
Proof.
  induction 1 as [sent err | sent n err p e Hn Hp Hs
                 | sent n err p cs ex Hn Hp Hs _ IH]; intros Hex; cbn.
  - reflexivity.
  - discriminate.
  - rewrite (IH Hex). reflexivity.
Qed.

(** When the loop ends by [return], a [Send] of a Chunk failed, the status
    is 1 and the message carries the text of that failure. *)
Lemma loop_trace_abort w sent cs ex :
  loop_trace w sent cs ex ->
  forall code msg, ex = Return code msg ->
  code = 1%Z /\
  exists sent' p e,
    stream_Send w sent' (Chunk p) = Some e /\
    msg = "failed to write snapshot data: " +:+ Error e.
Proof.
  induction 1 as [sent err | sent n err p e Hn Hp Hs
                 | sent n err p cs ex Hn Hp Hs _ IH]; intros code msg Hex.
  - discriminate.
  - injection Hex as <- <-. split; [reflexivity|]. eauto.
  - eauto.
Qed.

(** What [initReader] returns when it succeeds: standard input with no
    closer, or the file named by the first argument, which is its own
    closer. *)
Lemma initReader_inr w args f r closer :
  initReader w args = inr (f, r, closer) ->
  (f = Stdin /\ r = os_Stdin w /\ closer = None /\
   (args = [] \/ exists rest, args = "-" :: rest)) \/
  (exists p rest, args = p :: rest /\ p <> "-" /\ os_Open w p = inr r /\
                  f = File p /\ closer = Some (File p)).
Proof.
  destruct args as [|p rest]; cbn.
  - destruct (IsTerminal w); [discriminate|]. intros [= <- <- <-]. left. auto.
  - destruct (decide (p = "-")) as [->|Hne].
    + intros [= <- <- <-]. left. eauto 6.
    + destruct (os_Open w p) as [e|content] eqn:Hop; [discriminate|].
      intros [= <- <- <-]. right. exists p, rest. auto.
Qed.

End MoreTraces.

(** ** What is printed, what is closed, what the server has seen *)

(** X2.  When [Run] returns 0 it prints one line: "Server data restored."
    when the data came from standard input (no argument, or the argument
    "-"), and "Server data restored from '<args[0]>'." when they came from
    the file named by the first argument. *)
Theorem success_message w args :
  exists o,
    Run w args = Some o /\
    (status o = 0%Z ->
     ui_output o =
       [match args with
        | [] => "Server data restored."
        | arg0 :: _ =>
            if decide (arg0 = "-") then "Server data restored."
            else "Server data restored from '" +:+ arg0 +:+ "'."
        end]).
Proof.
  run_cases w args o; try discriminate.
  - intros ->. destruct (sendLoop_run _ _ _ _ Hl) as (Htr & _).
    destruct (loop_trace_abort _ _ _ _ Htr _ _ eq_refl) as [Hcode _].
    discriminate.
  - intros _. subst line.
    destruct (initReader_inr _ _ _ _ _ Hr)
      as [(-> & _ & _ & Hargs) | (p & rest & -> & Hne & _ & -> & _)].
    + destruct (decide (Stdin = Stdin)); [|contradiction].
      destruct Hargs as [-> | (rest & ->)]; [reflexivity|].
      destruct (decide ("-" = "-")); [reflexivity | contradiction].
    + destruct (decide (File p = Stdin)); [discriminate|].
      destruct (decide (p = "-")); [contradiction | reflexivity].
Qed.

(** X3.  The file [Run] opened is closed when it returns, on every way
    out, whatever fails after the opening; standard input is never closed,
    and nothing is closed that was not opened. *)
Theorem opened_file_closed w args :
  exists o,
    Run w args = Some o /\
    closed o <> Some Stdin /\
    (forall x, closed o = Some x ->
       exists p rest content,
         args = p :: rest /\ p <> "-" /\ os_Open w p = inr content /\ x = File p) /\
    (c_Init w args = None ->
     forall p rest content,
       args = p :: rest -> p <> "-" -> os_Open w p = inr content ->
       closed o = Some (File p)).
Proof.
  assert (Hopen : forall p rest content,
             p <> "-" -> os_Open w p = inr content ->
             initReader w (p :: rest) = inr (File p, content, Some (File p))).
  { intros p rest content Hne Hop. cbn.
    destruct (decide (p = "-")); [contradiction|]. rewrite Hop. reflexivity. }
  run_cases w args o.
  1: split; [discriminate|]; split; [discriminate | congruence].
  1: split; [discriminate|]; split; [discriminate|];
     intros _ p rest content -> Hne Hop; rewrite (Hopen _ _ _ Hne Hop) in Hr;
     discriminate.
  all: destruct (initReader_inr _ _ _ _ _ Hr)
         as [(-> & _ & -> & _) | (p & rest & -> & Hne & Hop & -> & ->)];
       (split; [discriminate|]); split.
  all: try discriminate.
  all: try (intros _ p rest content -> Hne Hop;
            rewrite (Hopen _ _ _ Hne Hop) in Hr; discriminate).
  all: try (intros x [= <-]; eauto 8).
  all: intros _ p' rest' content' [= <- <-] _ _; reflexivity.
Qed.

(** X4.  When [Run] half-closes, every [Send] before it has succeeded: the
    stream has then received Open followed by exactly the Chunk frames, in
    order, and the exit status is 0 exactly when the stream, having
    received these events, answers [CloseAndRecv] without an error. *)
Theorem half_close_after_all_sent w args :
  exists o,
    Run w args = Some o /\
    (half_closes (calls o) = 1 ->
     sent_of (calls o) = Open :: map Chunk (chunks (calls o)) /\
     (status o = 0%Z <->
      stream_CloseAndRecv w (Open :: map Chunk (chunks (calls o))) = None)).
Proof.
  run_cases w args o; try (cbn; discriminate).
  - destruct (sendLoop_run _ _ _ _ Hl) as (Htr & _).
    cbn [half_closes]. rewrite (loop_trace_half_closes _ _ _ _ Htr). discriminate.
  - destruct (sendLoop_run _ _ _ _ Hl) as (Htr & _).
    pose proof (loop_trace_sent _ _ _ _ Htr eq_refl) as Hsent.
    intros _. rewrite sent_of_app, chunks_app. cbn [sent_of chunks app] in *.
    rewrite !app_nil_r, Hsent in *. split; [reflexivity|].
    rewrite Hres. split; discriminate.
  - destruct (sendLoop_run _ _ _ _ Hl) as (Htr & _).
    pose proof (loop_trace_sent _ _ _ _ Htr eq_refl) as Hsent.
    intros _. rewrite sent_of_app, chunks_app. cbn [sent_of chunks app] in *.
    rewrite !app_nil_r, Hsent in *. split; [reflexivity|].
    rewrite Hres. split; reflexivity.
Qed.

(** X5.  Fills are neither merged nor split on their way to the stream:
    the byte counts that the calls of [io.ReadFull] returned are the
    lengths of the Chunk frames handed to [Send], one for one and in order,
    followed in a run that half-closes by the one fill of zero bytes that
    ended the loop. *)
Theorem one_chunk_per_fill w args :
  exists o,
    Run w args = Some o /\
    fills (calls o) =
      map length (chunks (calls o)) ++
      (if decide (half_closes (calls o) = 1) then [0] else []).
Proof.
  run_cases w args o; try reflexivity.
  - destruct (sendLoop_run _ _ _ _ Hl) as (Htr & _).
    cbn [fills chunks half_closes].
    rewrite (loop_trace_half_closes _ _ _ _ Htr).
    rewrite (loop_trace_fills_chunks _ _ _ _ Htr). reflexivity.
  - destruct (sendLoop_run _ _ _ _ Hl) as (Htr & _).
    rewrite fills_app, chunks_app, half_closes_app.
    cbn [fills chunks half_closes app].
    rewrite (loop_trace_half_closes _ _ _ _ Htr), !app_nil_r.
    rewrite (loop_trace_fills_chunks _ _ _ _ Htr). reflexivity.
  - destruct (sendLoop_run _ _ _ _ Hl) as (Htr & _).
    rewrite fills_app, chunks_app, half_closes_app.
    cbn [fills chunks half_closes app].
    rewrite (loop_trace_half_closes _ _ _ _ Htr), !app_nil_r.
    rewrite (loop_trace_fills_chunks _ _ _ _ Htr). reflexivity.
Qed.

(** X6.  Every message [Run] writes to standard error reports the error
    of one failed call -- [initReader], [RestoreSnapshot], the [Send] of
    Open, the [Send] of a Chunk or [CloseAndRecv] -- under the heading of
    that call; nothing else is ever written there, and so never an error of
    [io.ReadFull]. *)
Theorem stderr_reports w args :
  exists o,
    Run w args = Some o /\
    forall msg, In msg (stderr o) ->
      (exists e, initReader w args = inl e /\
                 msg = "failed to open output: " +:+ Error e) \/
      (exists e, client_RestoreSnapshot w = Some e /\
                 msg = "failed to restore snapshot: " +:+ Error e) \/
      (exists e, stream_Send w [] Open = Some e /\
                 msg = "failed to send start message: " +:+ Error e) \/
      (exists sent p e, stream_Send w sent (Chunk p) = Some e /\
                        msg = "failed to write snapshot data: " +:+ Error e) \/
      (exists sent e, stream_CloseAndRecv w sent = Some e /\
                      msg = "failed to receive snapshot start message: " +:+ Error e).
Proof.
  run_cases w args o; intros m Hm; cbn in Hm; try contradiction;
    destruct Hm as [<-|[]].
  - left. eauto.
  - right. left. eauto.
  - right. right. left. eauto.
  - destruct (sendLoop_run _ _ _ _ Hl) as (Htr & _).
    destruct (loop_trace_abort _ _ _ _ Htr _ _ eq_refl)
      as (_ & sent' & p & e0 & Hs & ->).
    do 3 right. left. eauto.
  - do 4 right. eauto.
Qed.

(** X7.  [Run] touches the stream if and only if initialisation, the
    opening of the source and the opening of the channel have all
    succeeded -- a source that cannot be opened is reported before any
    call on the stream -- and its first call on the stream is then the
    [Send] of Open. *)
Theorem stream_used_iff w args :
  exists o,
    Run w args = Some o /\
    (calls o <> [] <->
     c_Init w args = None /\ (exists rd, initReader w args = inr rd) /\
     client_RestoreSnapshot w = None) /\
    (forall c cs, calls o = c :: cs -> c = Send Open (stream_Send w [] Open)).
Proof.
  run_cases w args o.
  1-3: split; [split; [contradiction|]; intros (Hi' & (rd & Hrd) & Hc');
               congruence |]; intros c tl Heq; discriminate.
  - split; [split; [eauto | discriminate]|].
    intros c tl [= <- _]. rewrite Ho. reflexivity.
  - split; [split; [eauto | discriminate]|].
    intros c tl [= <- _]. rewrite Ho. reflexivity.
  - split; [split; [eauto | discriminate]|].
    intros c tl [= <- _]. rewrite Ho. reflexivity.
  - split; [split; [eauto | discriminate]|].
    intros c tl [= <- _]. rewrite Ho. reflexivity.
Qed.

(** ** The frames are the bytes cut every 1024 *)

Section Chunking.

Implicit Types (N : nat) (ps qs : list (list byte)).

Lemma full_but_last_tail N p ps : full_but_last N (p :: ps) -> full_but_last N ps.
Proof. intros H i q Hi Hlt. apply (H (S i) q); [exact Hi | cbn; lia]. Qed.

(** The bytes after the first chunk: none when it is the only chunk, and
    otherwise the first chunk is full and some bytes follow. *)
Lemma first_chunk_cases N p ps :
  Forall (fun q => 0 < length q) (p :: ps) -> full_but_last N (p :: ps) ->
  (ps = [] /\ length (concat ps) = 0) \/
  (ps <> [] /\ length p = N /\ 0 < length (concat ps)).
Proof.
  intros HF Hfull. destruct ps as [|q ps]; [left; auto|]. right.
  split; [discriminate|]. split.
  - apply (Hfull 0 p); [reflexivity | cbn; lia].
  - inversion HF as [|? ? _ HF']; subst. inversion HF' as [|? ? Hq _]; subst.
    cbn. rewrite length_app. lia.
Qed.

(** There is one way only to cut a byte string into non-empty chunks of at
    most [N] bytes of which all but the last have [N]. *)
Lemma chunking_unique N : forall ps qs,
  Forall (fun p => 0 < length p) ps -> Forall (fun p => length p <= N) ps ->
  full_but_last N ps ->
  Forall (fun p => 0 < length p) qs -> Forall (fun p => length p <= N) qs ->
  full_but_last N qs ->
  concat ps = concat qs -> ps = qs.
Proof.
  induction ps as [|p ps IH]; intros qs Hp1 Hp2 Hp3 Hq1 Hq2 Hq3 Heq.
  - cbn in Heq. symmetry. apply (nonempty_concat_nil qs []); [exact Hq1|].
    rewrite app_nil_r. exact Heq.
  - destruct qs as [|q qs].
    { cbn in Heq. apply (nonempty_concat_nil (p :: ps) []); [exact Hp1|].
      rewrite app_nil_r. symmetry. exact Heq. }
    cbn in Heq.
    assert (Hlen : length p + length (concat ps) = length q + length (concat qs))
      by (rewrite <- !length_app, Heq; reflexivity).
    pose proof (first_chunk_cases _ _ _ Hp1 Hp3) as Hcp.
    pose proof (first_chunk_cases _ _ _ Hq1 Hq3) as Hcq.
    inversion Hp1 as [|? ? Hp0 Hp1']; subst. inversion Hp2 as [|? ? HpN Hp2']; subst.
    inversion Hq1 as [|? ? Hq0 Hq1']; subst. inversion Hq2 as [|? ? HqN Hq2']; subst.
    assert (Hpq : length p = length q) by lia.
    apply app_inj_1 in Heq; [|exact Hpq]. destruct Heq as [-> Heq].
    f_equal. apply IH; auto; eapply full_but_last_tail; eauto.
Qed.

(** Such a cutting of [n] bytes has [(n + N - 1) / N] chunks. *)
Lemma chunking_count N : forall ps,
  0 < N ->
  Forall (fun p => 0 < length p) ps -> Forall (fun p => length p <= N) ps ->
  full_but_last N ps ->
  length ps = (length (concat ps) + (N - 1)) / N.
Proof.
  intros ps HN. induction ps as [|p ps IH]; intros H1 H2 H3.
  - cbn. symmetry. apply Nat.div_small. lia.
  - pose proof (first_chunk_cases _ _ _ H1 H3) as Hc.
    inversion H1 as [|? ? Hp0 H1']; subst. inversion H2 as [|? ? HpN H2']; subst.
    cbn [concat length]. rewrite length_app.
    destruct Hc as [[-> _] | (_ & Hfull & _)].
    + cbn. rewrite Nat.add_0_r.
      apply (Nat.div_unique _ _ 1 (length p - 1)); lia.
    + rewrite (IH H1' H2' (full_but_last_tail _ _ _ H3)), Hfull.
      replace (N + length (concat ps) + (N - 1))
        with (1 * N + (length (concat ps) + (N - 1))) by lia.
      rewrite Nat.div_add_l by lia. reflexivity.
Qed.

End Chunking.

(** The chunks of a run that half-closes on a source whose reads do not
    fail and whose EOF is final: they add up to the bytes of the source and
    are cut as above. *)
Lemma completed_run_chunks w args f r closer o :
  initReader w args = inr (f, r, closer) ->
  fault_free r = true -> eof_final r = true ->
  Run w args = Some o -> half_closes (calls o) = 1 ->
  concat (chunks (calls o)) = stream r /\
  Forall (fun p => 0 < length p) (chunks (calls o)) /\
  Forall (fun p => length p <= bufSize) (chunks (calls o)) /\
  full_but_last bufSize (chunks (calls o)).
Proof.
  intros Hrd Hff Hef HRun Hhc.
  destruct (Run_view w args) as (o' & HR & V).
  rewrite HRun in HR. injection HR as <-.
  destruct V as [e Hi | e Hi Hr | f' r' cl' e Hi Hr Hc | f' r' cl' e Hi Hr Hc Ho
                | f' r' cl' cs code msg Hi Hr Hc Ho Hl
                | f' r' cl' cs e Hi Hr Hc Ho Hl Hres
                | f' r' cl' cs line Hline Hi Hr Hc Ho Hl Hres];
    cbn [calls] in *; try (cbn in Hhc; discriminate).
  - destruct (sendLoop_run _ _ _ _ Hl) as (Htr & _).
    cbn [half_closes] in Hhc. rewrite (loop_trace_half_closes _ _ _ _ Htr) in Hhc.
    discriminate.
  - rewrite Hrd in Hr. injection Hr as <- <- <-.
    destruct (sendLoop_run _ _ _ _ Hl) as (Htr & (rest & Hrest & Hall) & Hle & Hfull).
    rewrite chunks_app. cbn [chunks app]. rewrite app_nil_r.
    rewrite (Hall Hff Hef eq_refl), app_nil_r in Hrest.
    split; [auto|]. split; [exact (loop_trace_chunks_nonempty _ _ _ _ Htr)|]. auto.
  - rewrite Hrd in Hr. injection Hr as <- <- <-.
    destruct (sendLoop_run _ _ _ _ Hl) as (Htr & (rest & Hrest & Hall) & Hle & Hfull).
    rewrite chunks_app. cbn [chunks app]. rewrite app_nil_r.
    rewrite (Hall Hff Hef eq_refl), app_nil_r in Hrest.
    split; [auto|]. split; [exact (loop_trace_chunks_nonempty _ _ _ _ Htr)|]. auto.
Qed.

(** X8.  On sources whose reads do not fail and that return end-of-stream
    only at their end, the frames depend on the bytes of the source only,
    not on how many of them each read delivers: two runs that half-close on
    such sources holding the same bytes -- a pipe that trickles and a file,
    say -- hand the same Chunk frames to [Send].  (An end-of-stream before
    the end does change the frames, as the reopened FIFO shows.) *)
Theorem frames_depend_on_bytes_only w1 args1 f1 r1 c1 w2 args2 f2 r2 c2 :
  initReader w1 args1 = inr (f1, r1, c1) ->
  fault_free r1 = true -> eof_final r1 = true ->
  initReader w2 args2 = inr (f2, r2, c2) ->
  fault_free r2 = true -> eof_final r2 = true ->
  stream r1 = stream r2 ->
  exists o1 o2,
    Run w1 args1 = Some o1 /\ Run w2 args2 = Some o2 /\
    (half_closes (calls o1) = 1 -> half_closes (calls o2) = 1 ->
     chunks (calls o1) = chunks (calls o2)).
Proof.
  intros Hr1 Hf1 He1 Hr2 Hf2 He2 Hs.
  destruct (Run_view w1 args1) as (o1 & HR1 & _).
  destruct (Run_view w2 args2) as (o2 & HR2 & _).
  exists o1, o2. split; [exact HR1|]. split; [exact HR2|]. intros Hh1 Hh2.
  destruct (completed_run_chunks _ _ _ _ _ _ Hr1 Hf1 He1 HR1 Hh1)
    as (Hc1 & Ha1 & Hb1 & Hd1).
  destruct (completed_run_chunks _ _ _ _ _ _ Hr2 Hf2 He2 HR2 Hh2)
    as (Hc2 & Ha2 & Hb2 & Hd2).
  apply (chunking_unique bufSize); auto. congruence.
Qed.

(** The witness of X8: 2500 bytes trickling through a pipe and the same
    bytes in a file go out as the same three frames. *)
Lemma frames_depend_on_bytes_only_witness :
  exists o1 o2,
    Run (scenario.piped scenario.trickle) [] = Some o1 /\
    Run (scenario.on_disk "backup.snap" scenario.whole_file) ["backup.snap"] = Some o2 /\
    chunks (calls o1) = chunks (calls o2) /\
    map length (chunks (calls o2)) = [1024; 1024; 452].
Proof.
  destruct (frames_depend_on_bytes_only
              (scenario.piped scenario.trickle) [] Stdin scenario.trickle None
              (scenario.on_disk "backup.snap" scenario.whole_file) ["backup.snap"]
              (File "backup.snap") scenario.whole_file (Some (File "backup.snap"))
              eq_refl eq_refl eq_refl eq_refl eq_refl eq_refl)
    as (o1 & o2 & HR1 & HR2 & Heq); [vm_compute; reflexivity|].
  exists o1, o2. split; [exact HR1|]. split; [exact HR2|].
  vm_compute in HR1. injection HR1 as <-.
  vm_compute in HR2. injection HR2 as <-.
  split; [apply Heq; reflexivity | vm_compute; reflexivity].
Defined.

(** X9.  A run that half-closes on a source of [n] bytes whose reads do
    not fail and that returns end-of-stream only at its end sends
    [(n + 1023) / 1024] Chunk frames: as few as frames of 1024 bytes allow,
    none for an empty source. *)
Theorem frame_count w args f r closer :
  initReader w args = inr (f, r, closer) ->
  fault_free r = true -> eof_final r = true ->
  exists o,
    Run w args = Some o /\
    (half_closes (calls o) = 1 ->
     length (chunks (calls o)) = (length (stream r) + 1023) / 1024).
Proof.
  intros Hrd Hff Hef. destruct (Run_view w args) as (o & HR & _).
  exists o. split; [exact HR|]. intros Hhc.
  destruct (completed_run_chunks _ _ _ _ _ _ Hrd Hff Hef HR Hhc)
    as (Hc & Ha & Hb & Hd).
  rewrite <- Hc. apply (chunking_count bufSize); auto. unfold bufSize. lia.
Qed.

(** The witness of X9: 2500 bytes make three frames. *)
Lemma frame_count_witness :
  exists o,
    Run (scenario.piped scenario.trickle) [] = Some o /\
    length (chunks (calls o)) = 3.
Proof.
  destruct (frame_count (scenario.piped scenario.trickle) [] Stdin
              scenario.trickle None eq_refl eq_refl eq_refl) as (o & HR & Hn).
  exists o. split; [exact HR|]. rewrite Hn.
  - vm_compute. reflexivity.
  - vm_compute in HR. injection HR as <-. reflexivity.
Defined.

(** ** Reading a configuration back from its environment *)

Section EnvBack.

Import component.

Lemma Env_lookup_id c : Env c !! "DEVFLOW_DEPLOYMENT_ID" = Some (Id c).
Proof.
  destruct c as [id addr insecure]. unfold Env. cbn [Id ServerAddr ServerInsecure].
  destruct (decide (addr = "")); [|destruct insecure]; by simplify_map_eq.
Qed.

Lemma Env_lookup_addr c :
  Env c !! "DEVFLOW_SERVER_ADDR" =
  if decide (ServerAddr c = "") then None else Some (ServerAddr c).
Proof.
  destruct c as [id addr insecure]. unfold Env. cbn [Id ServerAddr ServerInsecure].
  destruct (decide (addr = "")); [|destruct insecure]; by simplify_map_eq.
Qed.

Lemma Env_lookup_insecure c :
  Env c !! "DEVFLOW_SERVER_INSECURE" =
  if decide (ServerAddr c = "") then None
  else if ServerInsecure c then Some "1" else None.
Proof.
  destruct c as [id addr insecure]. unfold Env. cbn [Id ServerAddr ServerInsecure].
  destruct (decide (addr = "")); [|destruct insecure]; by simplify_map_eq.
Qed.

(** X10.  The environment tells the configuration apart as far as the
    entry point can use it: two configurations have the same environment
    if and only if they have the same [Id], the same [ServerAddr] and, when
    that address is not empty, the same [ServerInsecure].  Without a server
    address [ServerInsecure] leaves no trace. *)
Theorem Env_injective (c1 c2 : DeploymentConfig) :
  Env c1 = Env c2 <->
  Id c1 = Id c2 /\ ServerAddr c1 = ServerAddr c2 /\
  (ServerAddr c1 <> "" -> ServerInsecure c1 = ServerInsecure c2).
Proof.
  split.
  - intros Heq.
    pose proof (Env_lookup_id c1) as Hi1. pose proof (Env_lookup_id c2) as Hi2.
    pose proof (Env_lookup_addr c1) as Ha1. pose proof (Env_lookup_addr c2) as Ha2.
    pose proof (Env_lookup_insecure c1) as Hs1.
    pose proof (Env_lookup_insecure c2) as Hs2.
    rewrite Heq in Hi1, Ha1, Hs1. rewrite Hi1 in Hi2. rewrite Ha1 in Ha2.
    rewrite Hs1 in Hs2. clear Heq Hi1 Ha1 Hs1.
    split; [congruence|].
    destruct (decide (ServerAddr c1 = "")) as [E1|N1],
             (decide (ServerAddr c2 = "")) as [E2|N2]; try discriminate.
    + split; [congruence | contradiction].
    + injection Ha2 as Ha. split; [exact Ha|]. intros _.
      destruct (ServerInsecure c1), (ServerInsecure c2); congruence.
  - destruct c1 as [id1 a1 s1], c2 as [id2 a2 s2]. cbn [Id ServerAddr ServerInsecure].
    intros (-> & -> & Hs). unfold Env. cbn [Id ServerAddr ServerInsecure].
    destruct (decide (a2 = "")); [reflexivity|]. rewrite (Hs ltac:(assumption)).
    reflexivity.
Qed.

End EnvBack.

(** ** A read that fails where a fill begins *)

Section Truncation.

Variables (m : string) (rest : reader).

Implicit Types (pre : reader) (buf : list byte) (n fuel : nat) (w : World).

(** A fill on a script in which a read fails after the reads of [pre],
    which deliver bytes only:
    either the buffer is filled from [pre] and the failing read is still to
    come, or the bytes of [pre] do not fill it, the failing read is met and
    the fill ends with those bytes. *)
Lemma ReadAtLeast_loop_fault fuel : forall pre buf n,
  fault_free pre = true -> eof_final pre = true ->
  n <= length buf -> length pre + 1 < fuel ->
  exists n' err' buf' r',
    ReadAtLeast_loop fuel (pre ++ Fault m :: rest) buf (length buf) n None =
      Some (n', err', buf', r') /\
    length buf' = length buf /\
    ((n' = length buf /\
      exists pre' d, r' = pre' ++ Fault m :: rest /\ fault_free pre' = true /\
                     eof_final pre' = true /\ length pre' <= length pre /\
                     take n' buf' = take n buf ++ d /\ stream pre = d ++ stream pre')
     \/
     (n' < length buf /\ r' = rest /\ take n' buf' = take n buf ++ stream pre)).
Proof.
  induction fuel as [|fuel IH]; intros pre buf n Hff Hef Hn Hfuel; [lia|].
  rewrite ReadAtLeast_loop_eq. rewrite bool_decide_eq_true_2 by reflexivity.
  rewrite andb_true_r.
  destruct (n <? length buf) eqn:Hlt.
  2:{ apply Nat.ltb_ge in Hlt. eexists _, _, _, _. split; [reflexivity|].
      split; [reflexivity|]. left. split; [lia|].
      exists pre, []. rewrite app_nil_r. auto 6. }
  apply Nat.ltb_lt in Hlt.
  destruct pre as [|[bs|msg|] pre]; cbn [app Read];
    [| |discriminate|discriminate].
  - (* the failing read *)
    rewrite ReadAtLeast_loop_err, copy_at_nil.
    eexists _, _, _, _. split; [reflexivity|]. split; [reflexivity|].
    right. cbn [length]. rewrite Nat.add_0_r, app_nil_r. auto.
  - cbn in Hff, Hef. cbn [length stream] in *.
    case_decide as Hk.
    + (* the segment is used up *)
      rewrite take_ge by lia.
      assert (Hcp : length (copy_at n bs buf) = length buf)
        by (apply copy_at_length; lia).
      assert (Htk : take (n + length bs) (copy_at n bs buf) = take n buf ++ bs)
        by (apply take_copy_at; lia).
      destruct (IH pre (copy_at n bs buf) (n + length bs))
        as (n' & e' & buf' & r' & Hres & Hb & Hcases); [auto | auto | lia | lia |].
      rewrite Hcp in *. exists n', e', buf', r'.
      split; [exact Hres|]. split; [exact Hb|].
      destruct Hcases as [(Hn' & pre' & d & -> & Hf' & He' & Hl' & Hd & Hs)
                         | (Hn' & -> & Hd)].
      * left. split; [exact Hn'|]. exists pre', (bs ++ d).
        rewrite Hd, Htk, Hs, !app_assoc. repeat split; auto; lia.
      * right. rewrite Hd, Htk, app_assoc. auto.
    + (* the buffer is filled *)
      assert (Hlk : length (take (length buf - n) bs) = length buf - n)
        by (rewrite length_take; lia).
      rewrite ReadAtLeast_loop_full by lia.
      eexists _, _, _, _. split; [reflexivity|].
      split; [apply copy_at_length; lia|]. left. split; [lia|].
      exists (Data (drop (length buf - n) bs) :: pre), (take (length buf - n) bs).
      cbn [app stream fault_free eof_final length].
      rewrite take_copy_at by lia. rewrite app_assoc, take_drop. auto 6.
Qed.

Lemma ReadFull_fault fuel pre buf :
  fault_free pre = true -> eof_final pre = true -> length pre + 1 < fuel ->
  exists n err buf' r',
    ReadFull fuel (pre ++ Fault m :: rest) buf = Some (n, err, buf', r') /\
    length buf' = length buf /\
    ((n = length buf /\
      exists pre', r' = pre' ++ Fault m :: rest /\ fault_free pre' = true /\
                   eof_final pre' = true /\ length pre' <= length pre /\
                   stream pre = take n buf' ++ stream pre')
     \/
     (n < length buf /\ r' = rest /\ take n buf' = stream pre)).
Proof.
  intros Hff Hef Hfuel. unfold ReadFull, ReadAtLeast. rewrite Nat.ltb_irrefl.
  destruct (ReadAtLeast_loop_fault fuel pre buf 0 Hff Hef)
    as (n & e & buf' & r' & -> & Hb & Hcases); [lia | lia |].
  eexists _, _, _, _. split; [reflexivity|]. split; [exact Hb|].
  rewrite take_0, app_nil_l in Hcases.
  destruct Hcases as [(Hn & pre' & d & -> & Hf' & He' & Hl' & Hd & Hs)
                     | (Hn & -> & Hd)].
  - left. split; [exact Hn|]. exists pre'. rewrite Hd. auto 6.
  - right. auto.
Qed.

(** The loop on such a script, when the bytes before the failing read fill
    whole buffers: the failing read is the first of a fill, that fill
    returns no bytes and the loop ends -- by [break] with exactly the bytes
    before the failing read sent, unless a [Send] failed first. *)
Lemma sendLoop_fault w fuel : forall pre buf sent k,
  fault_free pre = true -> eof_final pre = true -> 0 < length buf ->
  length (stream pre) = k * length buf ->
  fuel_for (pre ++ Fault m :: rest) <= fuel ->
  exists cs ex,
    sendLoop fuel w (pre ++ Fault m :: rest) buf sent = Some (cs, ex) /\
    (ex = Break -> concat (chunks cs) = stream pre).
Proof.
  unfold fuel_for.
  induction fuel as [|fuel IH]; intros pre buf sent k Hff Hef Hbuf Hk Hfuel; [lia|].
  rewrite length_app in Hfuel. cbn [length] in Hfuel.
  cbn [sendLoop].
  destruct (ReadFull_fault (S fuel) pre buf Hff Hef)
    as (n & err & buf' & r' & -> & Hb & Hcases); [lia|].
  destruct Hcases as [(Hn & pre' & -> & Hf' & He' & Hl' & Hs) | (Hn & -> & Hd)].
  - (* a full buffer *)
    assert (Hlen : length (take n buf') = n) by (rewrite length_take; lia).
    assert (Hsl : length (stream pre) = n + length (stream pre'))
      by (rewrite Hs, length_app, Hlen; reflexivity).
    destruct (n =? 0) eqn:Hz; [apply Nat.eqb_eq in Hz; lia|].
    destruct (stream_Send w sent (Chunk (take n buf'))) as [e|].
    + eexists _, _. split; [reflexivity | discriminate].
    + destruct k as [|k]; [lia|].
      destruct (IH pre' buf' (sent ++ [Chunk (take n buf')]) k)
        as (cs & ex & -> & Hex); [auto | auto | lia | nia | |].
      { rewrite length_app. cbn [length].
        assert (length (stream (pre ++ Fault m :: rest)) =
                length (stream pre) + length (stream rest)) as Hsp.
        { clear. induction pre as [|[bs|msg|] pre IHp]; cbn; auto.
          rewrite !length_app, IHp. lia. }
        assert (length (stream (pre' ++ Fault m :: rest)) =
                length (stream pre') + length (stream rest)) as Hsp'.
        { clear. induction pre' as [|[bs|msg|] pre' IHp]; cbn; auto.
          rewrite !length_app, IHp. lia. }
        lia. }
      eexists _, _. split; [reflexivity|].
      intros Hbr. cbn [chunks concat]. rewrite (Hex Hbr), Hs. reflexivity.
  - (* the failing read is the first of the fill *)
    assert (Hlen : length (take n buf') = n) by (rewrite length_take; lia).
    assert (n = 0) as ->
      by (rewrite Hd, Hk in Hlen; destruct k; cbn in Hlen; lia).
    cbn [Nat.eqb]. eexists _, _. split; [reflexivity|].
    intros _. cbn. rewrite <- Hd, take_0. reflexivity.
Qed.

End Truncation.

(** X11.  What [Run] does when a read fails where a fill begins, that is,
    after a whole number of buffers of 1024 bytes, read without a failure
    and without an end-of-stream: the fill returns no bytes and the loop
    takes it for the end of the data.  A run that
    half-closes has sent exactly the bytes before the failing read, and
    none of those the source holds after it; and when initialisation, the
    channel, the [Send]s and the Result succeed, [Run] returns 0 and writes
    nothing to standard error. *)
Theorem read_failure_truncates w args f pre m rest closer k :
  initReader w args = inr (f, pre ++ Fault m :: rest, closer) ->
  fault_free pre = true -> eof_final pre = true ->
  length (stream pre) = k * 1024 ->
  exists o,
    Run w args = Some o /\
    (half_closes (calls o) = 1 -> concat (chunks (calls o)) = stream pre) /\
    (c_Init w args = None -> client_RestoreSnapshot w = None ->
     (forall sent ev, stream_Send w sent ev = None) ->
     (forall sent, stream_CloseAndRecv w sent = None) ->
     status o = 0%Z /\ stderr o = [] /\ half_closes (calls o) = 1).
Proof.
  intros Hrd Hff Hef Hk.
  assert (Hloop : forall cs ex,
             sendLoop (fuel_for (pre ++ Fault m :: rest)) w
                      (pre ++ Fault m :: rest) buf0 [Open] = Some (cs, ex) ->
             ex = Break -> concat (chunks cs) = stream pre).
  { intros cs ex Hl.
    destruct (sendLoop_fault m rest w (fuel_for (pre ++ Fault m :: rest))
                pre buf0 [Open] k Hff Hef)
      as (cs' & ex' & Hl' & Hex);
      [rewrite buf0_length; unfold bufSize; lia
      | rewrite buf0_length; exact Hk | lia |].
    rewrite Hl in Hl'. injection Hl' as <- <-. exact Hex. }
  run_cases w args o; try (rewrite Hrd in Hr; injection Hr as <- <- <-).
  1-4: split; [cbn; discriminate|]; intros Hi' Hc' Hs' Hres'; try congruence;
       try (rewrite Hrd in Hr; discriminate); rewrite Hs' in Ho; discriminate.
  - destruct (sendLoop_run _ _ _ _ Hl) as (Htr & _).
    cbn [half_closes]. rewrite (loop_trace_half_closes _ _ _ _ Htr).
    split; [discriminate|]. intros _ _ Hs' _.
    pose proof (loop_trace_sends_ok _ _ _ _ Hs' Htr). discriminate.
  - rewrite chunks_app. cbn [chunks app]. rewrite app_nil_r.
    split; [intros _; exact (Hloop _ _ Hl eq_refl)|].
    intros _ _ _ Hres'. rewrite Hres' in Hres. discriminate.
  - destruct (sendLoop_run _ _ _ _ Hl) as (Htr & _).
    rewrite chunks_app, half_closes_app. cbn [chunks app half_closes].
    rewrite app_nil_r, (loop_trace_half_closes _ _ _ _ Htr).
    split; [intros _; exact (Hloop _ _ Hl eq_refl)|]. auto.
Qed.

(** The witness of X11: the second read of a file of 1025 bytes fails. *)
Lemma read_failure_truncates_witness :
  initReader (scenario.on_disk "backup.snap" scenario.faulty_file) ["backup.snap"] =
    inr (File "backup.snap",
         [Data (replicate 1024 "A"%byte)] ++
         Fault "read backup.snap: input/output error" :: [Data (scenario.bytes "B")],
         Some (File "backup.snap")) /\
  fault_free [Data (replicate 1024 "A"%byte)] = true /\
  eof_final [Data (replicate 1024 "A"%byte)] = true /\
  length (stream [Data (replicate 1024 "A"%byte)]) = 1 * 1024 /\
  exists o,
    Run (scenario.on_disk "backup.snap" scenario.faulty_file) ["backup.snap"] = Some o /\
    concat (chunks (calls o)) = replicate 1024 "A"%byte /\
    status o = 0%Z.
Proof.
  split; [reflexivity|]. split; [reflexivity|]. split; [reflexivity|].
  split; [reflexivity|].
  destruct (read_failure_truncates
              (scenario.on_disk "backup.snap" scenario.faulty_file) ["backup.snap"]
              (File "backup.snap") [Data (replicate 1024 "A"%byte)]
              "read backup.snap: input/output error" [Data (scenario.bytes "B")]
              (Some (File "backup.snap")) 1 eq_refl eq_refl eq_refl eq_refl)
    as (o & HR & Hchunks & Hok).
  exists o. split; [exact HR|].
  destruct Hok as (Hst & _ & Hhc); try reflexivity.
  split; [|exact Hst]. rewrite (Hchunks Hhc). cbn [stream]. apply app_nil_r.
Defined.

(** ** The empty source *)

(** The loop that sends no chunk made one fill, of no bytes, and ended by
    [break]. *)
Lemma loop_trace_no_chunks w sent cs ex :
  loop_trace w sent cs ex -> chunks cs = [] ->
  ex = Break /\ exists err, cs = [io_ReadFull 0 err].
Proof.
  destruct 1 as [sent err | sent n err p e Hn Hp Hs | sent n err p cs ex Hn Hp Hs Htr];
    cbn; intros Hc; [eauto | discriminate | discriminate].
Qed.

(** X12.  A source that holds no bytes (and whose reads do not fail) still
    makes a whole session: once initialisation, the channel and the [Send]
    of Open have succeeded, the calls on the stream are the [Send] of Open
    and then the half-close, with no Chunk between them, and the exit status
    is 0 exactly when the stream, having received Open alone, answers the
    half-close without an error. *)
Theorem empty_source_session w args f r closer :
  initReader w args = inr (f, r, closer) ->
  fault_free r = true -> stream r = [] ->
  c_Init w args = None -> client_RestoreSnapshot w = None ->
  stream_Send w [] Open = None ->
  exists o,
    Run w args = Some o /\
    wire (calls o) = [Send Open None; CloseAndRecv (stream_CloseAndRecv w [Open])] /\
    (status o = 0%Z <-> stream_CloseAndRecv w [Open] = None).
Proof.
  intros Hrd Hff Hnil Hinit Hch Hopen.
  assert (Hloop : forall cs ex,
             sendLoop (fuel_for r) w r buf0 [Open] = Some (cs, ex) ->
             ex = Break /\ exists err, cs = [io_ReadFull 0 err]).
  { intros cs ex Hl.
    destruct (sendLoop_run _ _ _ _ Hl) as (Htr & (tl & Htl & _) & _).
    rewrite Hnil in Htl.
    apply (loop_trace_no_chunks _ _ _ _ Htr).
    exact (nonempty_concat_nil _ _ (loop_trace_chunks_nonempty _ _ _ _ Htr) Htl). }
  run_cases w args o; try congruence;
    rewrite Hrd in Hr; injection Hr as <- <- <-.
  - destruct (Hloop _ _ Hl) as [Hex _]. discriminate.
  - destruct (Hloop _ _ Hl) as (_ & err & ->). cbn in Hres |- *.
    rewrite Hres. split; [reflexivity|]. split; discriminate.
  - destruct (Hloop _ _ Hl) as (_ & err & ->). cbn in Hres |- *.
    rewrite Hres. split; [reflexivity|]. split; reflexivity.
Qed.

(** The witness of X12: a pipe that is closed after one read of no bytes. *)
Lemma empty_source_session_witness :
  initReader (scenario.piped [Data []]) [] = inr (Stdin, [Data []], None) /\
  fault_free [Data []] = true /\ stream [Data []] = [] /\
  exists o,
    Run (scenario.piped [Data []]) [] = Some o /\
    wire (calls o) = [Send Open None; CloseAndRecv None] /\
    status o = 0%Z.
Proof.
  split; [reflexivity|]. split; [reflexivity|]. split; [reflexivity|].
  destruct (empty_source_session (scenario.piped [Data []]) [] Stdin [Data []] None
              eq_refl eq_refl eq_refl eq_refl eq_refl eq_refl)
    as (o & HR & Hw & Hst).
  exists o. split; [exact HR|]. split; [exact Hw|]. apply Hst. reflexivity.
Defined.
